(** * Titanic weekly exercises: the data-transformation layer of [apputil.py]

    A shallow embedding of the four aggregation functions
    ([survival_demographics], [family_groups], [last_names],
    [determine_age_division] and the summary built by
    [visualize_age_division]) together with the dataframe operations they
    call, and the properties the specification states about them.

    Conventions of the embedding:
    - a dataframe is the list of its rows, in row order;
    - a cell that may be empty (NaN) is an [option]. The columns whose
      missing values the program or its specification provides for are
      optional: [Pclass] and [Sex] ([dropna]), [Age] ([isna], [pd.cut]),
      [SibSp] and [Parch] ([fillna]), [Fare] (aggregations that skip
      NaN). [PassengerId], [Survived] and [Name] are always present, as in
      the data model of the specification;
    - [SibSp] and [Parch] hold integers. A column of integers without a
      missing cell is an [int64] column, whose sums wrap around; with a
      missing cell it is a [float64] column, whose sums round;
    - the number types of the [Age] and of the [Fare] column are
      parameters [A] and [D] with their arithmetic ([Arith]): the program
      runs at binary64, where each operation rounds, and is also read at
      exact rationals. Where ages are only compared with constants
      ([pd.cut]), which binary64 does exactly, they are read at their exact
      value: a [Passenger] is a row with such an age. Rates of counts are
      exact rationals;
    - a [KeyError] raised by a label lookup is the [None] of an [option];
    - [visualize_age_division] stands for the table it hands to the chart. *)

From Stdlib Require Import ZArith QArith Qcanon Lia Lqa Ascii.
From Stdlib Require PrimFloat.
From Stdlib Require Import SpecFloat FloatAxioms.
From Stdlib Require Uint63.
Import (notations) PrimFloat.
From stdpp Require Import base option numbers list sets sorting strings.

Local Open Scope Z_scope.

(** ** Data model *)

(** One row of the Titanic table. [Survived] is the 0/1 flag; [A] is the
    number type of the [Age] column and [D] that of the [Fare] column. *)
Record Row (A D : Type) := mkPassenger {
  PassengerId : Z;
  Survived : bool;
  Pclass : option Z;
  Name : string;
  Sex : option string;
  Age : option A;
  SibSp : option Z;
  Parch : option Z;
  Fare : option D
}.

Arguments mkPassenger {A D}.
Arguments PassengerId {A D}.
Arguments Survived {A D}.
Arguments Pclass {A D}.
Arguments Name {A D}.
Arguments Sex {A D}.
Arguments Age {A D}.
Arguments SibSp {A D}.
Arguments Parch {A D}.
Arguments Fare {A D}.

(** A row whose age is read at its exact value, and a table of such rows. *)
Abbreviation Passenger D := (Row Qc D).
Abbreviation DataFrame D := (list (Passenger D)).

(** The ordered categorical produced by [pd.cut]. *)
Inductive AgeGroup := Child | Teen | Adult | Senior.

Global Instance AgeGroup_eq_dec : EqDecision AgeGroup.
Proof. solve_decision. Defined.

(** The label of a category, as the program writes it, and its position in
    the order of the categories. *)
Definition label (g : AgeGroup) : string :=
  match g with
  | Child => "Child"
  | Teen => "Teen"
  | Adult => "Adult"
  | Senior => "Senior"
  end.

Definition code (g : AgeGroup) : nat :=
  match g with
  | Child => 0
  | Teen => 1
  | Adult => 2
  | Senior => 3
  end.

(** ** Generic dataframe operations *)

Module Pd.

(** [Series.dropna()]. *)
Definition dropna {A} (col : list (option A)) : list A := omap id col.

(** [Series.fillna(v)] on one cell. *)
Definition fillna {A} (v : A) (x : option A) : A := default v x.

(** [Series.unique()]: distinct values in order of first appearance. *)
Fixpoint unique {A} `{EqDecision A} (l : list A) : list A :=
  match l with
  | [] => []
  | x :: l' => x :: filter (λ y, y ≠ x) (unique l')
  end.

(** Label lookup [s.loc[k]] in a keyed table; [None] is [KeyError]. *)
Fixpoint loc {K V} `{EqDecision K} (k : K) (s : list (K * V)) : option V :=
  match s with
  | [] => None
  | (k', v) :: s' => if decide (k = k') then Some v else loc k s'
  end.

(** [reindex(index, fill_value=fill)]: one row per label of [index], in
    that order, taking the row of that label when there is one. *)
Definition reindex {K V} `{EqDecision K}
    (index : list K) (fill : V) (s : list (K * V)) : list (K * V) :=
  (λ k, (k, default fill (loc k s))) <$> index.

(** The bins of [pd.cut(x, bins, labels, right=True)] after the lowest
    edge: [x] falls in the first bin [(lo, hi]] that contains it. *)
Fixpoint cut_right {L} (lo : Qc) (edges : list Qc) (labels : list L) (x : Qc)
    : option L :=
  match edges, labels with
  | hi :: edges', lab :: labels' =>
      if decide (lo < x ∧ x ≤ hi)%Qc then Some lab
      else cut_right hi edges' labels' x
  | _, _ => None
  end.

(** [pd.cut(x, bins, labels, right=True, include_lowest=True)] on one
    cell: a missing value, or a value outside the bins, gets no label;
    [include_lowest] puts the lowest edge itself in the first bin. *)
Definition cut {L} (bins : list Qc) (labels : list L) (x : option Qc)
    : option L :=
  match x, bins with
  | Some a, b0 :: edges =>
      if decide (a = b0) then head labels else cut_right b0 edges labels a
  | _, _ => None
  end.

(** A sort that keeps values the order does not tell apart in the order
    they come in: each value is put behind the values that may stand
    before it. *)
Fixpoint insert_sorted {A} (R : relation A) `{∀ x y, Decision (R x y)}
    (e : A) (l : list A) : list A :=
  match l with
  | [] => [e]
  | x :: l' => if decide (R x e) then x :: insert_sorted R e l' else e :: l
  end.

Definition sort_stable {A} (R : relation A) `{∀ x y, Decision (R x y)}
    (l : list A) : list A :=
  foldl (λ acc e, insert_sorted R e acc) [] l.

(** The two number types a column of integers can have. *)
Inductive dtype := int64 | float64.

(** The type [read_csv] gives a column of integers: [int64] when every
    cell is present (each of them within the range of [int64]), [float64]
    when one is missing. *)
Definition count_dtype (col : list (option Z)) : dtype :=
  if bool_decide (Forall is_Some col) then int64 else float64.

(** An integer reduced to the range of [int64], as its arithmetic does. *)
Definition wrap64 (z : Z) : Z := (z + 2 ^ 63) `mod` 2 ^ 64 - 2 ^ 63.

(** The binary64 value nearest to an integer, ties to the even
    significand: the integer itself up to 2^53, and beyond that a multiple
    of the power of two that leaves 53 significant bits. *)
Definition round53 (z : Z) : Z :=
  let a := Z.abs z in
  if decide (a ≤ 2 ^ 53) then z
  else
    let e := Z.log2 a - 52 in
    let q := a / 2 ^ e in
    let rest := a `mod` 2 ^ e in
    let half := 2 ^ (e - 1) in
    let up := bool_decide (half < rest ∨ (rest = half ∧ Z.odd q = true)) in
    Z.sgn z * ((if up then q + 1 else q) * 2 ^ e).

(** The sum of two cells of integer columns of the given types, and of
    such a cell and the integer literal [k]; the value of a [float64] cell
    is the binary64 value nearest to the integer written. *)
Definition add_counts (t1 t2 : dtype) (x y : Z) : Z :=
  match t1, t2 with
  | int64, int64 => wrap64 (x + y)
  | _, _ => round53 (round53 x + round53 y)
  end.

Definition add_literal (t : dtype) (x k : Z) : Z :=
  match t with
  | int64 => wrap64 (x + k)
  | float64 => round53 (x + k)
  end.

(** The type of the sum of two columns. *)
Definition sum_dtype (t1 t2 : dtype) : dtype :=
  match t1, t2 with
  | int64, int64 => int64
  | _, _ => float64
  end.

End Pd.

(** ** Arithmetic and aggregation of a numeric column *)

(** The arithmetic a numeric column is aggregated and compared with. *)
Class Arith (D : Type) := {
  num_zero : D;
  num_add : D → D → D;
  num_sub : D → D → D;
  num_div : D → D → D;
  num_of_count : nat → D;
  num_lt : D → D → bool;
  num_eqb : D → D → bool
}.

(** Exact rationals. *)
#[global] Instance Qc_arith : Arith Qc := {|
  num_zero := 0%Qc;
  num_add := Qcplus;
  num_sub := Qcminus;
  num_div := Qcdiv;
  num_of_count n := Qc_of_Z (Z.of_nat n);
  num_lt x y := bool_decide (x < y)%Qc;
  num_eqb x y := bool_decide (x = y)
|}.

(** Binary64, every operation rounded to nearest; a count is exact (it is
    far below 2^53). *)
#[global] Instance float_arith : Arith PrimFloat.float := {|
  num_zero := 0%float;
  num_add := PrimFloat.add;
  num_sub := PrimFloat.sub;
  num_div := PrimFloat.div;
  num_of_count n := Nat.iter n (PrimFloat.add 1%float) 0%float;
  num_lt := PrimFloat.ltb;
  num_eqb := PrimFloat.eqb
|}.

(** The aggregations ["mean"], ["min"] and ["max"] of a grouped column over
    the values of a group that are present; with no value present the
    result is missing. The mean is a running sum with a running
    compensation for the rounding of each addition (a compensation that is
    not a number is reset), divided by the number of values; the minimum
    and the maximum replace the value held by a later one that is
    strictly smaller, or greater. *)
Module Agg.
Section agg.
Context {D : Type} `{Arith D}.

Definition compensated (acc : D * D) (val : D) : D * D :=
  let '(sumx, compensation) := acc in
  let y := num_sub val compensation in
  let t := num_add sumx y in
  let c := num_sub (num_sub t sumx) y in
  (t, if num_eqb c c then c else num_zero).

Definition sum (xs : list D) : D := (foldl compensated (num_zero, num_zero) xs).1.
Definition least (acc val : D) : D := if num_lt val acc then val else acc.
Definition greatest (acc val : D) : D := if num_lt acc val then val else acc.

Definition mean (col : list (option D)) : option D :=
  match Pd.dropna col with
  | [] => None
  | xs => Some (num_div (sum xs) (num_of_count (length xs)))
  end.
Definition min (col : list (option D)) : option D :=
  match Pd.dropna col with
  | [] => None
  | x :: xs => Some (foldl least x xs)
  end.
Definition max (col : list (option D)) : option D :=
  match Pd.dropna col with
  | [] => None
  | x :: xs => Some (foldl greatest x xs)
  end.
End agg.
End Agg.

(** * The program *)

(** The keys of the three groupings. *)
Abbreviation DemoKey := (Z * string * AgeGroup)%type.
Abbreviation FamKey := (Z * Z)%type.
Abbreviation DivKey := (Z * bool)%type.

(** [sorted(df["Pclass"].dropna().unique())] and the same for [Sex]. *)
Definition pclasses {A D} (df : list (Row A D)) : list Z :=
  merge_sort (≤)%Z (Pd.unique (Pd.dropna (Pclass <$> df))).
Definition sexes {A D} (df : list (Row A D)) : list string :=
  merge_sort String.le (Pd.unique (Pd.dropna (Sex <$> df))).

Section demographics.
Context {D : Type}.

(** ** [survival_demographics]: age groups *)

Definition bins : list Qc := Qc_of_Z <$> [0; 12; 19; 59; 120].
Definition labels : list AgeGroup := [Child; Teen; Adult; Senior].

(** The [age_group] cell of a row. *)
Definition age_group (r : Passenger D) : option AgeGroup :=
  Pd.cut bins labels (Age r).

(** The intervals of the four buckets as the specification writes them. *)
Definition spec_interval (g : AgeGroup) (a : Qc) : Prop :=
  match g with
  | Child => Qc_of_Z 0 ≤ a ∧ a ≤ Qc_of_Z 12
  | Teen => Qc_of_Z 13 ≤ a ∧ a ≤ Qc_of_Z 19
  | Adult => Qc_of_Z 20 ≤ a ∧ a ≤ Qc_of_Z 59
  | Senior => Qc_of_Z 60 ≤ a ∧ a ≤ Qc_of_Z 120
  end%Qc.

(** The intervals of the four buckets as [pd.cut] forms them from [bins]:
    closed on the right, and closed on the left for the first one only. *)
Definition cut_interval (g : AgeGroup) (a : Qc) : Prop :=
  match g with
  | Child => Qc_of_Z 0 ≤ a ∧ a ≤ Qc_of_Z 12
  | Teen => Qc_of_Z 12 < a ∧ a ≤ Qc_of_Z 19
  | Adult => Qc_of_Z 19 < a ∧ a ≤ Qc_of_Z 59
  | Senior => Qc_of_Z 59 < a ∧ a ≤ Qc_of_Z 120
  end%Qc.

(** ** [survival_demographics]: grouping, completion, rate *)

(** [pd.MultiIndex.from_product([l1, l2, l3])]: every triple, the first
    level varying slowest. *)
Definition from_product {K1 K2 K3} (l1 : list K1) (l2 : list K2) (l3 : list K3)
    : list (K1 * K2 * K3) :=
  a ← l1; b ← l2; c ← l3; [(a, b, c)].

(** The group a row belongs to; a row with a missing key cell belongs to
    none ([groupby] drops it). *)
Definition demo_key (r : Passenger D) : option DemoKey :=
  c ← Pclass r; s ← Sex r; g ← age_group r; Some (c, s, g).

Definition full_index (df : DataFrame D) : list DemoKey :=
  from_product (pclasses df) (sexes df) labels.

(** [.agg(n_passengers=("Survived", "count"), n_survivors=("Survived", "sum"))]
    on the rows of one group. *)
Definition agg_survived (rows : DataFrame D) : nat * nat :=
  (length rows, length (filter (λ r, Survived r = true) rows)).

(** [df.dropna(subset=["age_group"]).groupby(["Pclass", "Sex", "age_group"],
    observed=False).agg(...)]: with a categorical key and [observed=False]
    the result has one entry for every combination of the values of the
    keys, an empty group counting 0 and summing to 0. *)
Definition grouped_demo (df : DataFrame D) : list (DemoKey * (nat * nat)) :=
  let df' := filter (λ r, is_Some (age_group r)) df in
  (λ k, (k, agg_survived (filter (λ r, demo_key r = Some k) df')))
    <$> from_product (pclasses df') (sexes df') labels.

Record DemoRow := mkDemoRow {
  d_Pclass : Z;
  d_Sex : string;
  d_age_group : AgeGroup;
  n_passengers : nat;
  n_survivors : nat;
  survival_rate : Qc
}.

Definition d_key (row : DemoRow) : DemoKey :=
  (d_Pclass row, d_Sex row, d_age_group row).

(** [lambda r: 0 if r.n_passengers == 0 else r.n_survivors / r.n_passengers]. *)
Definition rate_or_zero (n s : nat) : Qc :=
  if decide (n = 0%nat) then 0%Qc
  else (Qc_of_Z (Z.of_nat s) / Qc_of_Z (Z.of_nat n))%Qc.

Definition demo_row (e : DemoKey * (nat * nat)) : DemoRow :=
  let '((c, s, g), (n, k)) := e in mkDemoRow c s g n k (rate_or_zero n k).

(** The order of the [age_group] cells under [sort_values]. [reindex]
    returns a frame whose index already is the one asked for as it is,
    and its [age_group] level is the ordered categorical of [pd.cut],
    sorted in the order of the categories; otherwise the level is that of
    [full_index], the labels as plain strings, sorted as such. *)
Definition age_group_le (categorical : bool) (g1 g2 : AgeGroup) : Prop :=
  if categorical then (code g1 ≤ code g2)%nat
  else String.le (label g1) (label g2).

(** The order of [sort_values(["Pclass", "Sex", "age_group"])]. *)
Definition demo_le (categorical : bool) (r1 r2 : DemoRow) : Prop :=
  d_Pclass r1 < d_Pclass r2 ∨
  (d_Pclass r1 = d_Pclass r2 ∧
    (d_Sex r1 ≠ d_Sex r2 ∧ String.le (d_Sex r1) (d_Sex r2) ∨
     d_Sex r1 = d_Sex r2 ∧
       age_group_le categorical (d_age_group r1) (d_age_group r2))).

Global Instance age_group_le_dec b : RelDecision (age_group_le b).
Proof. intros g1 g2. unfold age_group_le. destruct b; apply _. Defined.

Global Instance demo_le_dec b : RelDecision (demo_le b).
Proof. intros r1 r2. unfold demo_le. apply _. Defined.

(** The table [survival_demographics] returns. (What [apply] and the column
    assignment do on a frame without any row, here and in
    [determine_age_division], is left aside: such a frame is the list
    without rows.) *)
Definition survival_demographics (df : DataFrame D) : list DemoRow :=
  let grouped := grouped_demo df in
  let unchanged := bool_decide (grouped.*1 = full_index df) in
  let completed := Pd.reindex (full_index df) (0%nat, 0%nat) grouped in
  merge_sort (demo_le unchanged) (demo_row <$> completed).

(** The distinct classes and sexes that occur in the table, and the
    passengers of one class, sex and age group. *)
Definition observed_classes (df : DataFrame D) : list Z :=
  remove_dups (omap Pclass df).
Definition observed_sexes (df : DataFrame D) : list string :=
  remove_dups (omap Sex df).
Definition matching (df : DataFrame D) (k : DemoKey) : DataFrame D :=
  filter (λ r, Pclass r = Some k.1.1 ∧ Sex r = Some k.1.2 ∧ age_group r = Some k.2) df.

End demographics.

Section program.
Context {A D : Type} `{Arith A} `{Arith D}.

(** ** [family_groups] *)

(** [df["SibSp"].fillna(0) + df["Parch"].fillna(0) + 1] on the row [r] of
    [df]: the sums are those of the types of the two columns. *)
Definition family_size (df : list (Row A D)) (r : Row A D) : Z :=
  let t1 := Pd.count_dtype (SibSp <$> df) in
  let t2 := Pd.count_dtype (Parch <$> df) in
  Pd.add_literal (Pd.sum_dtype t1 t2)
    (Pd.add_counts t1 t2 (Pd.fillna 0 (SibSp r)) (Pd.fillna 0 (Parch r))) 1.

Definition fam_key (df : list (Row A D)) (r : Row A D) : option FamKey :=
  c ← Pclass r; Some (c, family_size df r).

(** Keys in the order of [groupby] and of
    [sort_values(["Pclass", "family_size"])]. *)
Definition fam_key_le (k1 k2 : FamKey) : Prop :=
  k1.1 < k2.1 ∨ (k1.1 = k2.1 ∧ k1.2 ≤ k2.2).

Global Instance fam_key_le_dec : RelDecision fam_key_le.
Proof. intros k1 k2. unfold fam_key_le. apply _. Defined.

Record FamRow := mkFamRow {
  f_Pclass : Z;
  f_family_size : Z;
  f_n_passengers : nat;
  avg_fare : option D;
  min_fare : option D;
  max_fare : option D
}.

Definition f_key (row : FamRow) : FamKey := (f_Pclass row, f_family_size row).

(** The rows of the group of key [k]. *)
Definition fam_group (df : list (Row A D)) (k : FamKey) : list (Row A D) :=
  filter (λ r, fam_key df r = Some k) df.

(** [.agg(n_passengers=("PassengerId", "count"), avg_fare=("Fare", "mean"),
    min_fare=("Fare", "min"), max_fare=("Fare", "max"))] on one group. *)
Definition fam_row (df : list (Row A D)) (k : FamKey) : FamRow :=
  let fares := Fare <$> fam_group df k in
  mkFamRow k.1 k.2 (length (fam_group df k))
    (Agg.mean fares) (Agg.min fares) (Agg.max fares).

(** [groupby(["Pclass", "family_size"], as_index=False)]: one group per
    observed key, in key order; then the same order again by
    [sort_values]. *)
Definition family_groups (df : list (Row A D)) : list FamRow :=
  let keys := merge_sort fam_key_le (Pd.unique (Pd.dropna (fam_key df <$> df))) in
  merge_sort (λ r1 r2, fam_key_le (f_key r1) (f_key r2)) (fam_row df <$> keys).

(** ** [last_names] *)

(** Whitespace as [str.strip()] sees it, among the characters a [string]
    of this development can hold (code points below 256). *)
Definition is_space (c : ascii) : bool :=
  let n := nat_of_ascii c in
  bool_decide (9 ≤ n ≤ 13 ∨ 28 ≤ n ≤ 32 ∨ n = 133 ∨ n = 160)%nat.

Fixpoint lstrip (s : string) : string :=
  match s with
  | EmptyString => EmptyString
  | String c s' => if is_space c then lstrip s' else s
  end.

Fixpoint rstrip (s : string) : string :=
  match s with
  | EmptyString => EmptyString
  | String c s' =>
      match rstrip s' with
      | EmptyString => if is_space c then EmptyString else String c EmptyString
      | t => String c t
      end
  end.

(** [s.strip()]. *)
Definition strip (s : string) : string := rstrip (lstrip s).

(** The text before and after the first occurrence of [sep], if any. *)
Fixpoint partition_at (sep : ascii) (s : string) : option (string * string) :=
  match s with
  | EmptyString => None
  | String c s' =>
      if decide (c = sep) then Some (EmptyString, s')
      else prod_map (String c) id <$> partition_at sep s'
  end.

(** [s.split(sep, 1)]: at most one split, at the first [sep]. *)
Definition split1 (sep : ascii) (s : string) : list string :=
  match partition_at sep s with
  | Some (a, b) => [a; b]
  | None => [s]
  end.

(** [df["Name"].str.split(",", n=1).str[0].str.strip()] on one cell; a
    list without an element 0 would give a missing cell. *)
Definition last_name (name : string) : option string :=
  strip <$> split1 "," name !! 0%nat.

(** One more occurrence of [k] in a table of counts that keeps the keys in
    order of first appearance. *)
Fixpoint count_add (k : string) (acc : list (string * nat)) : list (string * nat) :=
  match acc with
  | [] => [(k, 1%nat)]
  | (k', n) :: acc' =>
      if decide (k = k') then (k', S n) :: acc' else (k', n) :: count_add k acc'
  end.

(** Descending order of counts. *)
Definition count_ge (e1 e2 : string * nat) : Prop := (e2.2 ≤ e1.2)%nat.

Global Instance count_ge_dec : RelDecision count_ge.
Proof. intros e1 e2. unfold count_ge. apply _. Defined.

(** [Series.value_counts()]: missing cells are not counted; the result is
    ordered by descending count. *)
Definition value_counts (col : list (option string)) : list (string * nat) :=
  Pd.sort_stable count_ge (foldl (λ acc k, count_add k acc) [] (Pd.dropna col)).

(** The series [last_names] returns. Names of the same count are kept in
    the order of their first appearance, as a sort of a short series
    leaves them; the library's sort of a long series is not stable and may
    place them otherwise. What is proved of the series does not depend on
    that place. *)
Definition last_names (df : list (Row A D)) : list (string * nat) :=
  let last := last_name ∘ Name <$> df in
  Pd.sort_stable count_ge (value_counts last).

(** The characters of a string, and what it means for a string to be made
    of whitespace only, and to have no whitespace at either end. *)
Fixpoint chars (s : string) : list ascii :=
  match s with
  | EmptyString => []
  | String c s' => c :: chars s'
  end.

Definition all_space (s : string) : Prop :=
  Forall (λ c, is_space c = true) (chars s).

Definition trimmed (s : string) : Prop :=
  ∀ c, head (chars s) = Some c ∨ last (chars s) = Some c → is_space c = false.

(** ** [determine_age_division] and the summary of [visualize_age_division] *)

(** [x] may stand before [y] in ascending order: [y] is not less. *)
Definition not_after (x y : A) : Prop := num_lt y x = false.

Global Instance not_after_dec : RelDecision not_after.
Proof. intros x y. unfold not_after. apply _. Defined.

(** The median of a group of a column, skipping missing values: the
    middle one of the values in ascending order, for an even number of
    values the sum of the two middle ones divided by two, and missing when
    there is no value. *)
Definition median (col : list (option A)) : option A :=
  let s := merge_sort not_after (Pd.dropna col) in
  let n := length s in
  if Nat.even n then
    a ← s !! (n / 2 - 1)%nat; b ← s !! (n / 2)%nat;
    Some (num_div (num_add b a) (num_of_count 2))
  else s !! (n / 2)%nat.

(** The median age of class [c]. *)
Definition class_median (df : list (Row A D)) (c : Z) : option A :=
  median (Age <$> filter (λ r, Pclass r = Some c) df).

(** [df.groupby("Pclass")["Age"].median()]: a series indexed by the
    classes present. *)
Definition class_medians (df : list (Row A D)) : list (Z * option A) :=
  (λ c, (c, class_median df c)) <$> pclasses df.

(** [lambda r: False if pd.isna(r["Age"]) else
    r["Age"] > class_medians.loc[r["Pclass"]]]. The lookup of a class that
    is not in the index (a missing class) raises; a comparison with a
    missing median is false. *)
Definition older_passenger (medians : list (Z * option A)) (r : Row A D)
    : option bool :=
  match Age r with
  | None => Some false
  | Some a =>
      c ← Pclass r;
      m ← Pd.loc c medians;
      Some (match m with
            | Some m => num_lt m a
            | None => false
            end)
  end.

(** The table with its [older_passenger] column. *)
Definition determine_age_division (df : list (Row A D))
    : option (list (Row A D * bool)) :=
  let medians := class_medians df in
  mapM (λ r, b ← older_passenger medians r; Some (r, b)) df.

Definition div_key (e : Row A D * bool) : option DivKey :=
  c ← Pclass e.1; Some (c, e.2).

Definition div_key_le (k1 k2 : DivKey) : Prop :=
  k1.1 < k2.1 ∨ (k1.1 = k2.1 ∧ (k1.2 = true → k2.2 = true)).

Global Instance div_key_le_dec : RelDecision div_key_le.
Proof. intros k1 k2. unfold div_key_le. apply _. Defined.

(** A row of [grouped] before and after the rate column is added. *)
Record DivAgg := mkDivAgg {
  a_Pclass : Z;
  a_older_passenger : bool;
  a_n_passengers : nat;
  a_n_survivors : nat
}.

Record DivRow := mkDivRow {
  v_agg :> DivAgg;
  v_survival_rate : option Qc
}.

(** [df.groupby(["Pclass", "older_passenger"], as_index=False)
    .agg(n_passengers=("PassengerId", "count"), n_survivors=("Survived", "sum"))]. *)
Definition grouped_division (t : list (Row A D * bool)) : list DivAgg :=
  (λ k : DivKey,
     let rows := filter (λ e, div_key e = Some k) t in
     mkDivAgg k.1 k.2 (length rows)
       (length (filter (λ e, Survived e.1 = true) rows)))
    <$> merge_sort div_key_le (Pd.unique (Pd.dropna (div_key <$> t))).

(** [Series.replace(0, pd.NA)] on one cell. *)
Definition replace_zero_na (n : nat) : option nat :=
  if decide (n = 0%nat) then None else Some n.

(** Division of a cell by a cell that may be missing. *)
Definition div_na (s : nat) (n : option nat) : option Qc :=
  (λ n, Qc_of_Z (Z.of_nat s) / Qc_of_Z (Z.of_nat n))%Qc <$> n.

(** [grouped["survival_rate"] = grouped["n_survivors"] /
    grouped["n_passengers"].replace(0, pd.NA)], cell by cell. *)
Definition add_survival_rate (grouped : list DivAgg) : list DivRow :=
  (λ g, mkDivRow g (div_na (a_n_survivors g) (replace_zero_na (a_n_passengers g))))
    <$> grouped.

(** The table [visualize_age_division] hands to the chart. *)
Definition visualize_age_division (df : list (Row A D)) : option (list DivRow) :=
  add_survival_rate ∘ grouped_division <$> determine_age_division df.

End program.

Arguments FamRow : clear implicits.
Arguments mkFamRow {D}.

(** * [app.py]: the brief findings *)

(** [fam_tbl["family_size"].max()]: the largest cell of the column, missing
    when the table has no row. *)
Definition max_family_size {D} (fam_tbl : list (FamRow D)) : option Z :=
  match f_family_size <$> fam_tbl with
  | [] => None
  | n :: ns => Some (foldl Z.max n ns)
  end.

(** What the findings block of the page does: nothing when the table of
    last names is empty; otherwise it takes the first entry of that table
    and the largest family size of the family table, and [int] of a missing
    maximum raises. *)
Inductive Findings :=
  | Skipped
  | Raised
  | Shown (most_common : string) (most_common_count : nat) (largest : Z).

Definition brief_findings {A D} `{Arith D} (df : list (Row A D)) : Findings :=
  match last_names df with
  | [] => Skipped
  | (most_common, most_common_count) :: _ =>
      match max_family_size (family_groups df) with
      | None => Raised
      | Some largest => Shown most_common most_common_count largest
      end
  end.

(** * Vocabulary of the properties *)

(** Rows in the order of class, then sex. *)
Definition class_sex_le (r1 r2 : DemoRow) : Prop :=
  d_Pclass r1 < d_Pclass r2 ∨
  (d_Pclass r1 = d_Pclass r2 ∧ String.le (d_Sex r1) (d_Sex r2)).

(** Keys of [family_groups] in strictly increasing order: class first, then
    family size. *)
Definition fam_key_lt (k1 k2 : FamKey) : Prop :=
  k1.1 < k2.1 ∨ (k1.1 = k2.1 ∧ k1.2 < k2.2).

(** The number of rows of a table whose last name is [k]. *)
Definition occurrences {A D} (df : list (Row A D)) (k : string) : nat :=
  length (filter (λ r, last_name (Name r) = Some k) df).

(** Keys of the age-division summary in strictly increasing order: class
    first, then the flag, unflagged before flagged. *)
Definition div_key_lt (k1 k2 : DivKey) : Prop :=
  k1.1 < k2.1 ∨ (k1.1 = k2.1 ∧ k1.2 = false ∧ k2.2 = true).

(** The key columns of a row of the age-division summary. *)
Definition v_key (row : DivRow) : DivKey :=
  (a_Pclass row, a_older_passenger row).

(** The whitespace characters with a code point below 256: tab, line
    feed, vertical tab, form feed, carriage return, the four separators
    28 to 31, the space, next line (133) and the no-break space (160). *)
Definition whitespace : list ascii :=
  ascii_of_nat <$> [9; 10; 11; 12; 13; 28; 29; 30; 31; 32; 133; 160]%nat.

(** The two head counts of a row, a missing one counting 0, and the
    greatest value to which the family size of a table is an exact sum:
    the greatest [int64] when both columns are [int64], and 2^53, up to
    which every integer is a binary64 value, otherwise. *)
Definition siblings {A D} (r : Row A D) : Z := default 0 (SibSp r).
Definition parents {A D} (r : Row A D) : Z := default 0 (Parch r).

Definition exact_up_to {A D} (df : list (Row A D)) : Z :=
  match Pd.sum_dtype (Pd.count_dtype (SibSp <$> df)) (Pd.count_dtype (Parch <$> df)) with
  | Pd.int64 => 2 ^ 63 - 1
  | Pd.float64 => 2 ^ 53
  end.

(** The order [<] of a number type, and the ages recorded in a class. *)
Definition lt_of {D} `{Arith D} : relation D := λ x y, num_lt x y = true.

Definition class_ages {A D} (df : list (Row A D)) (c : Z) : list A :=
  omap Age (filter (λ r, Pclass r = Some c) df).

(** The middle of a list of values in ascending order, as the median
    takes it: the middle value, or the sum of the two middle values
    divided by two. *)
Definition middle {A} `{Arith A} (s : list A) : option A :=
  if Nat.even (length s) then
    lo ← s !! (length s / 2 - 1)%nat; hi ← s !! (length s / 2)%nat;
    Some (num_div (num_add hi lo) (num_of_count 2))
  else s !! (length s / 2)%nat.

(** The sum of a list of rationals. *)
Definition exact_sum (xs : list Qc) : Qc := foldr Qcplus 0%Qc xs.

(** * Concrete tables *)

(** A row with every cell but the age and the fare present, and a small
    table of such rows. *)
Definition p (id : Z) (sv : bool) (c : Z) (nm : string) (sx : string)
    (age : option Qc) (sib par : Z) (fare : option Qc) : Passenger Qc :=
  mkPassenger id sv (Some c) nm (Some sx) age (Some sib) (Some par) fare.

Definition sample : DataFrame Qc :=
  [ p 1 false 3 "Braund, Mr. Owen Harris" "male" (Some (Qc_of_Z 22)) 1 0
      (Some (Q2Qc (29 # 4)));
    p 2 true 1 "Cumings, Mrs. John Bradley" "female" (Some (Qc_of_Z 38)) 1 0
      (Some (Qc_of_Z 71));
    p 3 true 3 "Heikkinen, Miss. Laina" "female" (Some (Qc_of_Z 26)) 0 0 None;
    p 4 true 3 "Sandstrom, Miss. Marguerite Rut" "female" (Some (Qc_of_Z 4)) 1 1
      (Some (Q2Qc (167 # 10)));
    p 5 false 3 "Moran, Mr. James" "male" None 0 0 (Some (Q2Qc (169 # 20))) ].

(** A passenger aged twelve and a half. *)
Definition aged_12_5 : Passenger Qc :=
  mkPassenger 7 true (Some 2) "Doe, Jane" (Some "female")
    (Some (Q2Qc (25 # 2))) (Some 0) (Some 0) (Some (Qc_of_Z 10)).

(** A passenger whose age is not recorded. *)
Definition age_missing : Passenger Qc :=
  mkPassenger 8 false (Some 3) "Roe, Richard" (Some "male")
    None None None None.

(** The row of class 3, female, Child in the table of [sample]. *)
Definition sample_cell : DemoRow :=
  mkDemoRow 3 "female" Child 1 1 (rate_or_zero 1 1).

(** Two passengers of one class and family size, neither with a fare. *)
Definition no_fares : DataFrame Qc :=
  [ age_missing;
    mkPassenger 9 true (Some 3) "Poe, Edgar" (Some "male")
      (Some (Qc_of_Z 30)) (Some 0) (Some 0) None ].

(** A passenger of class [c] aged [a]. *)
Definition aged (id : Z) (c : option Z) (a : Z) : Passenger Qc :=
  mkPassenger id false c "Doe, John" (Some "male") (Some (Qc_of_Z a))
    (Some 0) (Some 0) None.

(** Three passengers of class 3 aged 30, 24 and 20 and one without an age;
    and a table whose only passenger has an age and no class. *)
Definition third_class : DataFrame Qc :=
  [aged 1 (Some 3) 30; aged 2 (Some 3) 24; aged 3 (Some 3) 20; age_missing].

Definition classless : DataFrame Qc := [aged 1 None 30].

(** A grouped table with an empty group, as [add_survival_rate] may be
    given one. *)
Definition with_empty_group : list DivAgg :=
  [mkDivAgg 1 false 0 0; mkDivAgg 1 true 4 3].

(** The binary64 value nearest to one tenth, the next one above it, and a
    table of three passengers of one class and family size who each paid
    one tenth. *)
Definition tenth : PrimFloat.float := 0x1.999999999999ap-4%float.
Definition tenth_succ : PrimFloat.float := 0x1.999999999999bp-4%float.
Definition paid_tenth (id : Z) : Passenger PrimFloat.float :=
  mkPassenger id false (Some 3) "Doe, John" (Some "male") None
    (Some 0) (Some 0) (Some tenth).
Definition three_tenths : DataFrame PrimFloat.float :=
  [paid_tenth 1; paid_tenth 2; paid_tenth 3].

(** Passengers of one class who paid 7.25, 71.2833 and 8.05, as binary64
    stores these fares, the second without a sibling count. *)
Definition paid (id : Z) (sib : option Z) (fare : PrimFloat.float)
    : Passenger PrimFloat.float :=
  mkPassenger id true (Some 1) "Doe, John" (Some "male") None
    sib (Some 0) (Some fare).
Definition three_fares : DataFrame PrimFloat.float :=
  [paid 1 (Some 0) 7.25%float; paid 2 None 0x1.1d2219652bd3cp+6%float; paid 3 (Some 0) 0x1.019999999999ap+3%float].

(** A passenger of class 3 whose age is the binary64 value [a], and the
    table of the specification's example at binary64: ages 30, 24 and 20
    and one passenger without an age. *)
Definition aged64 (id : Z) (a : option PrimFloat.float)
    : Row PrimFloat.float PrimFloat.float :=
  mkPassenger id false (Some 3) "Doe, John" (Some "male") a
    (Some 0) (Some 0) None.

Definition third_class64 : list (Row PrimFloat.float PrimFloat.float) :=
  [aged64 1 (Some 30%float); aged64 2 (Some 24%float);
   aged64 3 (Some 20%float); aged64 4 None].

(** Two binary64 values next to each other, the first and the second
    after 1, and a class of two passengers of these ages: at binary64, and
    with the same two ages as exact rationals. *)
Definition age_lo : PrimFloat.float := 0x1.0000000000001p+0%float.
Definition age_hi : PrimFloat.float := 0x1.0000000000002p+0%float.
Definition neighbours64 : list (Row PrimFloat.float PrimFloat.float) :=
  [aged64 1 (Some age_lo); aged64 2 (Some age_hi)].

Definition aged_exactly (id : Z) (a : Q) : Passenger Qc :=
  mkPassenger id false (Some 3) "Doe, John" (Some "male") (Some (Q2Qc a))
    (Some 0) (Some 0) None.
Definition neighbours : DataFrame Qc :=
  [aged_exactly 1 (2 ^ 52 + 1 # 2 ^ 52); aged_exactly 2 (2 ^ 52 + 2 # 2 ^ 52)].

(** A passenger with the greatest [int64] number of siblings; and a
    passenger with 2^53 siblings beside one whose number of siblings is
    missing. *)
Definition siblings_max : DataFrame Qc :=
  [p 1 false 3 "Doe, John" "male" None (2 ^ 63 - 1) 0 None].

Definition siblings_2_53 : DataFrame Qc :=
  [ p 1 false 3 "Doe, John" "male" None (2 ^ 53) 0 None;
    mkPassenger 2 false (Some 3) "Roe, Richard" (Some "male") None None (Some 0) None ].

(** One row of the table of [survival_demographics] without its rate. *)
Definition cell (c : Z) (s : string) (g : AgeGroup) (n k : nat)
    : DemoKey * nat * nat := (c, s, g, n, k).

(** * Properties *)

Example age_group_probe :
  Pd.cut bins labels (Some (Qc_of_Z 12)) = Some Child ∧
  Pd.cut bins labels (Some (Q2Qc (25 # 2))) = Some Teen ∧
  Pd.cut bins labels (Some (Qc_of_Z 0)) = Some Child ∧
  Pd.cut bins labels (Some (Qc_of_Z 121)) = None ∧
  Pd.cut bins labels (Some (Qc_of_Z (-1))) = None.
Proof. vm_compute. done. Qed.

(** ** Linear reasoning over [Qc] with integer constants *)

Lemma Qc_eq_this (x y : Qc) : x = y ↔ (this x == this y)%Q.
Proof. split; [by intros ->|apply Qc_is_canon]. Qed.

Ltac qc_lra :=
  repeat match goal with
  | H : (_ ∧ _) |- _ => destruct H
  | H : ¬ (_ ∧ _) |- _ => apply not_and_l in H; destruct H
  | H : ¬ (_ < _)%Qc |- _ => apply Qcnot_lt_le in H
  | H : ¬ (_ ≤ _)%Qc |- _ => apply Qcnot_le_lt in H
  | H : @eq Qc _ _ |- _ => apply Qc_eq_this in H
  | H : ¬ @eq Qc _ _ |- _ => rewrite Qc_eq_this in H
  end;
  unfold Qcle, Qclt, Qc_of_Z, inject_Z in *; simpl in *;
  first [lra | exfalso; lra].

Section cut_facts.
Local Open Scope Qc_scope.

Lemma cut_Some_iff (a : Qc) (g : AgeGroup) :
  Pd.cut bins labels (Some a) = Some g ↔ cut_interval g a.
Proof.
  unfold Pd.cut, bins, labels; simpl.
  repeat case_decide; destruct g; simpl; split; intros Hg;
    first [done | by simplify_eq | split; qc_lra | qc_lra].
Qed.

Lemma cut_None_iff (a : Qc) :
  Pd.cut bins labels (Some a) = None ↔ a < Qc_of_Z 0 ∨ Qc_of_Z 120 < a.
Proof.
  unfold Pd.cut, bins, labels; simpl.
  repeat case_decide; split; intros Hg;
    first [done | destruct Hg; qc_lra | left; qc_lra | right; qc_lra].
Qed.
End cut_facts.

(** A table in which every class and every sex has a passenger with an age
    group comes out in the order of the categories; one in which a class
    has none, in the order of the labels. *)
Example survival_demographics_sample :
  (λ r, (d_key r, n_passengers r, n_survivors r)) <$> survival_demographics sample
  = [ cell 1 "female" Child 0 0; cell 1 "female" Teen 0 0;
      cell 1 "female" Adult 1 1; cell 1 "female" Senior 0 0;
      cell 1 "male" Child 0 0; cell 1 "male" Teen 0 0;
      cell 1 "male" Adult 0 0; cell 1 "male" Senior 0 0;
      cell 3 "female" Child 1 1; cell 3 "female" Teen 0 0;
      cell 3 "female" Adult 1 1; cell 3 "female" Senior 0 0;
      cell 3 "male" Child 0 0; cell 3 "male" Teen 0 0;
      cell 3 "male" Adult 1 0; cell 3 "male" Senior 0 0 ] ∧
  (λ r, (d_key r, n_passengers r, n_survivors r))
    <$> survival_demographics [aged_12_5; age_missing]
  = [ cell 2 "female" Adult 0 0; cell 2 "female" Child 0 0;
      cell 2 "female" Senior 0 0; cell 2 "female" Teen 1 1;
      cell 2 "male" Adult 0 0; cell 2 "male" Child 0 0;
      cell 2 "male" Senior 0 0; cell 2 "male" Teen 0 0;
      cell 3 "female" Adult 0 0; cell 3 "female" Child 0 0;
      cell 3 "female" Senior 0 0; cell 3 "female" Teen 0 0;
      cell 3 "male" Adult 0 0; cell 3 "male" Child 0 0;
      cell 3 "male" Senior 0 0; cell 3 "male" Teen 0 0 ].
Proof. split; vm_compute; reflexivity. Qed.

(** ** Age groups *)

Lemma age_group_None_iff {D} (r : Passenger D) :
  age_group r = None ↔
  Age r = None ∨ ∃ a, Age r = Some a ∧ (a < Qc_of_Z 0 ∨ Qc_of_Z 120 < a)%Qc.
Proof.
  unfold age_group. destruct (Age r) as [a|] eqn:Ha.
  - rewrite cut_None_iff. split; [intros H; right; eauto|].
    intros [?|(a' & ? & ?)]; by simplify_eq.
  - split; [by left|done].
Qed.

Lemma age_group_Some_iff {D} (r : Passenger D) (g : AgeGroup) :
  age_group r = Some g ↔ ∃ a, Age r = Some a ∧ cut_interval g a.
Proof.
  unfold age_group. destruct (Age r) as [a|] eqn:Ha.
  - rewrite cut_Some_iff. split; [eauto|]. intros (a' & ? & ?); by simplify_eq.
  - split; [done|]. intros (a' & ? & ?); done.
Qed.

(** On whole-number ages the two readings of the buckets agree. *)
Lemma cut_interval_whole (n : Z) (g : AgeGroup) :
  cut_interval g (Qc_of_Z n) ↔ spec_interval g (Qc_of_Z n).
Proof.
  destruct g; simpl; rewrite <-?Z2Qc_inj_le, <-?Z2Qc_inj_lt; lia.
Qed.

Lemma demo_key_Some {D} (r : Passenger D) (k : DemoKey) :
  demo_key r = Some k ↔
  Pclass r = Some k.1.1 ∧ Sex r = Some k.1.2 ∧ age_group r = Some k.2.
Proof.
  unfold demo_key. destruct k as [[c s] g]; simpl.
  destruct (Pclass r), (Sex r), (age_group r); simpl;
    (split; [intros ?|intros (? & ? & ?)]; by simplify_eq).
Qed.

(** C3, as the specification writes the intervals, fails on an age between
    two whole numbers: twelve and a half is put in Teen, which the
    specification writes as [13,19]. *)
Lemma age_group_spec_interval_counterexample :
  Age aged_12_5 = Some (Q2Qc (25 # 2)) ∧
  age_group aged_12_5 = Some Teen ∧
  ¬ spec_interval Teen (Q2Qc (25 # 2)).
Proof.
  split_and!; [done|by vm_compute|].
  intros [H _]. by vm_compute in H.
Qed.

(** C3 (amended): the age group of a row is given by the four buckets
    Child [0,12], Teen (12,19], Adult (19,59], Senior (59,120], each closed
    on the right; a row whose age is missing, below 0 or above 120 has no
    age group, belongs to no group of the grouping step and is not among
    the rows that step keeps; on whole-number ages the buckets are
    [0,12], [13,19], [20,59], [60,120]. *)
Theorem age_group_buckets {D} (r : Passenger D) :
  (∀ g, age_group r = Some g ↔ ∃ a, Age r = Some a ∧ cut_interval g a) ∧
  (age_group r = None ↔
     Age r = None ∨ ∃ a, Age r = Some a ∧ (a < Qc_of_Z 0 ∨ Qc_of_Z 120 < a)%Qc) ∧
  (age_group r = None →
     demo_key r = None ∧
     ∀ df : DataFrame D, r ∉ filter (λ r, is_Some (age_group r)) df) ∧
  (∀ (n : Z) g, Age r = Some (Qc_of_Z n) →
     (age_group r = Some g ↔ spec_interval g (Qc_of_Z n))).
Proof.
  split_and!.
  - apply age_group_Some_iff.
  - apply age_group_None_iff.
  - intros Hg. split.
    + unfold demo_key. rewrite Hg. by destruct (Pclass r), (Sex r).
    + intros df [Hs _]%list_elem_of_filter. rewrite Hg in Hs. by destruct Hs.
  - intros n g Ha. rewrite age_group_Some_iff, <-cut_interval_whole.
    split; [intros (a & ? & ?); by simplify_eq|eauto].
Qed.

Lemma age_group_buckets_witness :
  age_group aged_12_5 = Some Teen ∧ age_group age_missing = None ∧
  demo_key age_missing = None.
Proof.
  split_and!.
  - apply (proj1 (age_group_buckets aged_12_5)).
    exists (Q2Qc (25 # 2)). split; [done|]. by vm_compute.
  - apply (proj1 (proj2 (age_group_buckets age_missing))). by left.
  - apply (proj1 (proj2 (proj2 (age_group_buckets age_missing)))).
    by vm_compute.
Defined.

(** ** Facts about the dataframe operations *)

Section pd_facts.
Context {A : Type} `{EqDecision A}.

Lemma elem_of_unique (l : list A) (x : A) : x ∈ Pd.unique l ↔ x ∈ l.
Proof.
  induction l as [|y l IH]; simpl; [done|].
  rewrite !elem_of_cons, list_elem_of_filter, IH.
  destruct (decide (x = y)); intuition congruence.
Qed.

Lemma NoDup_unique (l : list A) : NoDup (Pd.unique l).
Proof.
  induction l as [|y l IH]; simpl; constructor.
  - rewrite list_elem_of_filter. by intros [? _].
  - by apply NoDup_filter.
Qed.

(** The number of distinct values does not depend on how they are
    enumerated. *)
Lemma length_unique (l : list A) :
  length (Pd.unique l) = length (remove_dups l).
Proof.
  apply Permutation_length, NoDup_Permutation.
  - apply NoDup_unique.
  - apply NoDup_remove_dups.
  - intros x. by rewrite elem_of_unique, elem_of_remove_dups.
Qed.

Lemma elem_of_dropna (col : list (option A)) (x : A) :
  x ∈ Pd.dropna col ↔ Some x ∈ col.
Proof.
  unfold Pd.dropna. rewrite list_elem_of_omap. split.
  - intros (y & ? & ?). by simplify_eq/=.
  - intros ?. by exists (Some x).
Qed.

Lemma loc_fmap {V} (f : A → V) (keys : list A) (k : A) :
  Pd.loc k ((λ k, (k, f k)) <$> keys) = if decide (k ∈ keys) then Some (f k) else None.
Proof.
  induction keys as [|k' keys IH].
  - by destruct (decide (k ∈ [])) as [?%elem_of_nil|].
  - rewrite fmap_cons. cbn [Pd.loc]. rewrite IH.
    destruct (decide (k = k')) as [->|]; repeat case_decide;
      first [done | rewrite ?elem_of_cons in *; tauto].
Qed.

Lemma reindex_keys {V} (index : list A) (fill : V) (s : list (A * V)) :
  (Pd.reindex index fill s).*1 = index.
Proof.
  unfold Pd.reindex. rewrite <-list_fmap_compose. by rewrite list_fmap_id.
Qed.
End pd_facts.

Section from_product_facts.
Context {A B C : Type}.
Implicit Types (la : list A) (lb : list B) (lc : list C).

Lemma elem_of_from_product la lb lc (a : A) (b : B) (c : C) :
  (a, b, c) ∈ from_product la lb lc ↔ a ∈ la ∧ b ∈ lb ∧ c ∈ lc.
Proof.
  unfold from_product. rewrite list_elem_of_bind. split.
  - intros (a' & (b' & (c' & Hc & ?)%list_elem_of_bind & ?)%list_elem_of_bind & ?).
    apply list_elem_of_singleton in Hc. by simplify_eq.
  - intros (? & ? & ?). exists a. split; [|done].
    apply list_elem_of_bind. exists b. split; [|done].
    apply list_elem_of_bind. exists c. split; [|done].
    by apply list_elem_of_singleton.
Qed.

Lemma length_bind_const {X Y} (f : X → list Y) (n : nat) (l : list X) :
  (∀ x, length (f x) = n) → length (l ≫= f) = (length l * n)%nat.
Proof.
  intros Hf. induction l as [|x l IH]; csimpl; [done|].
  by rewrite length_app, Hf, IH.
Qed.

Lemma length_from_product la lb lc :
  length (from_product la lb lc) = (length la * length lb * length lc)%nat.
Proof.
  unfold from_product.
  rewrite (length_bind_const _ (length lb * length lc)); [lia|].
  intros a. rewrite (length_bind_const _ (length lc)); [done|].
  intros b. rewrite (length_bind_const _ 1); [lia|done].
Qed.

Lemma NoDup_from_product la lb lc :
  NoDup la → NoDup lb → NoDup lc → NoDup (from_product la lb lc).
Proof.
  intros H1 H2 H3. unfold from_product.
  apply NoDup_bind; [| |done].
  - intros a a' [[x y] z] _ _
      (b & (c & Hc & _)%list_elem_of_bind & _)%list_elem_of_bind
      (b' & (c' & Hc' & _)%list_elem_of_bind & _)%list_elem_of_bind.
    apply list_elem_of_singleton in Hc, Hc'. congruence.
  - intros a _. apply NoDup_bind; [| |done].
    + intros b b' [[x y] z] _ _
        (c & Hc & _)%list_elem_of_bind (c' & Hc' & _)%list_elem_of_bind.
      apply list_elem_of_singleton in Hc, Hc'. congruence.
    + intros b _. apply NoDup_bind; [| |done].
      * intros c c' ? _ _ Hc Hc'.
        apply list_elem_of_singleton in Hc, Hc'. congruence.
      * intros c _. apply NoDup_singleton.
Qed.
End from_product_facts.

Lemma dropna_fmap {A B} (f : A → option B) (l : list A) :
  Pd.dropna (f <$> l) = omap f l.
Proof.
  unfold Pd.dropna. induction l as [|x l IH]; csimpl; [done|].
  rewrite IH. by destruct (f x).
Qed.

Lemma filter_none {A} (P : A → Prop) `{∀ x, Decision (P x)} (l : list A) :
  (∀ x, x ∈ l → ¬ P x) → filter P l = [].
Proof.
  induction l as [|x l IH]; intros Hl; [done|].
  rewrite filter_cons_False by (apply Hl; left).
  apply IH. intros y ?. apply Hl. by right.
Qed.

(** ** [survival_demographics]: the completed table *)

Lemma elem_of_pclasses {A D} (df : list (Row A D)) (c : Z) :
  c ∈ pclasses df ↔ ∃ r, r ∈ df ∧ Pclass r = Some c.
Proof.
  unfold pclasses. rewrite merge_sort_Permutation, elem_of_unique.
  rewrite dropna_fmap. apply list_elem_of_omap.
Qed.

Lemma elem_of_sexes {D} (df : DataFrame D) (s : string) :
  s ∈ sexes df ↔ ∃ r, r ∈ df ∧ Sex r = Some s.
Proof.
  unfold sexes. rewrite merge_sort_Permutation, elem_of_unique.
  rewrite dropna_fmap. apply list_elem_of_omap.
Qed.

Lemma NoDup_pclasses {D} (df : DataFrame D) : NoDup (pclasses df).
Proof. unfold pclasses. rewrite merge_sort_Permutation. apply NoDup_unique. Qed.

Lemma NoDup_sexes {D} (df : DataFrame D) : NoDup (sexes df).
Proof. unfold sexes. rewrite merge_sort_Permutation. apply NoDup_unique. Qed.

Lemma length_pclasses {D} (df : DataFrame D) :
  length (pclasses df) = length (observed_classes df).
Proof.
  unfold pclasses, observed_classes.
  by rewrite merge_sort_Permutation, length_unique, dropna_fmap.
Qed.

Lemma length_sexes {D} (df : DataFrame D) :
  length (sexes df) = length (observed_sexes df).
Proof.
  unfold sexes, observed_sexes.
  by rewrite merge_sort_Permutation, length_unique, dropna_fmap.
Qed.

Lemma d_key_demo_row (e : DemoKey * (nat * nat)) : d_key (demo_row e) = e.1.
Proof. by destruct e as [[[c s] g] [n k]]. Qed.

Lemma survival_demographics_keys {D} (df : DataFrame D) :
  d_key <$> survival_demographics df ≡ₚ full_index df.
Proof.
  unfold survival_demographics. rewrite merge_sort_Permutation.
  rewrite <-list_fmap_compose.
  rewrite (list_fmap_ext _ fst) by (intros; apply d_key_demo_row).
  by rewrite reindex_keys.
Qed.

(** What [groupby] and [reindex] leave in the cell of key [k]: the
    aggregate of the rows of [df] that have this key. *)
Lemma demo_cell_value {D} (df : DataFrame D) (k : DemoKey) :
  default (0%nat, 0%nat) (Pd.loc k (grouped_demo df))
  = agg_survived (filter (λ r, demo_key r = Some k) df).
Proof.
  unfold grouped_demo. rewrite loc_fmap.
  set (df' := filter (λ r, is_Some (age_group r)) df).
  assert (filter (λ r, demo_key r = Some k) df'
          = filter (λ r, demo_key r = Some k) df) as Hf.
  { unfold df'. rewrite list_filter_filter. apply list_filter_iff.
    intros r. split; [by intros [? _]|]. intros Hk. split; [done|].
    apply demo_key_Some in Hk as (_ & _ & ->). by eexists. }
  case_decide as Hk; simpl; [by rewrite Hf|].
  rewrite <-Hf, filter_none; [done|].
  intros r Hr Hkr. apply Hk. destruct k as [[c s] g].
  apply demo_key_Some in Hkr as (Hc & Hs & Hg); simpl in *.
  apply elem_of_from_product. split_and!.
  - apply elem_of_pclasses; eauto.
  - apply elem_of_sexes; eauto.
  - destruct g; by apply (bool_decide_unpack _).
Qed.

Lemma elem_of_survival_demographics {D} (df : DataFrame D) (row : DemoRow) :
  row ∈ survival_demographics df ↔
  ∃ k, k ∈ full_index df ∧
    row = demo_row (k, agg_survived (filter (λ r, demo_key r = Some k) df)).
Proof.
  unfold survival_demographics. rewrite merge_sort_Permutation.
  unfold Pd.reindex. rewrite <-list_fmap_compose, list_elem_of_fmap.
  split; intros (k & Hk & ?); exists k; simpl in *;
    by rewrite ?demo_cell_value in *.
Qed.

Lemma matching_demo_key {D} (df : DataFrame D) (k : DemoKey) :
  filter (λ r, demo_key r = Some k) df = matching df k.
Proof. apply list_filter_iff. intros r. apply demo_key_Some. Qed.

Lemma demo_row_counts {D} (df : DataFrame D) (row : DemoRow) :
  row ∈ survival_demographics df →
  n_passengers row = length (matching df (d_key row)) ∧
  n_survivors row = length (filter (λ r, Survived r = true) (matching df (d_key row))) ∧
  survival_rate row = rate_or_zero (n_passengers row) (n_survivors row).
Proof.
  intros (k & _ & ->)%elem_of_survival_demographics.
  rewrite d_key_demo_row, matching_demo_key. by destruct k as [[c s] g].
Qed.

(** C1: the table has exactly one row for each triple of an observed class,
    an observed sex and one of the four age groups: its length is the
    product of the three counts, no key occurs twice, a key occurs exactly
    when its class and its sex occur in the source table; the counts of a
    row are those of the passengers that match its triple, so a row whose
    triple matches no passenger has both counts 0. *)
Theorem survival_demographics_complete {D} (df : DataFrame D) :
  let out := survival_demographics df in
  length out = (length (observed_classes df) * length (observed_sexes df) * 4)%nat ∧
  NoDup (d_key <$> out) ∧
  (∀ c s g, (c, s, g) ∈ d_key <$> out ↔
     (∃ r, r ∈ df ∧ Pclass r = Some c) ∧ (∃ r, r ∈ df ∧ Sex r = Some s)) ∧
  (∀ row, row ∈ out →
     n_passengers row = length (matching df (d_key row)) ∧
     n_survivors row
     = length (filter (λ r, Survived r = true) (matching df (d_key row))) ∧
     (matching df (d_key row) = [] →
        n_passengers row = 0%nat ∧ n_survivors row = 0%nat)).
Proof.
  intros out. split_and!.
  - rewrite <-(length_fmap d_key). unfold out.
    rewrite survival_demographics_keys. unfold full_index.
    by rewrite length_from_product, length_pclasses, length_sexes.
  - unfold out. rewrite survival_demographics_keys.
    apply NoDup_from_product; [apply NoDup_pclasses|apply NoDup_sexes|].
    by apply (bool_decide_unpack _).
  - intros c s g. unfold out. rewrite survival_demographics_keys.
    unfold full_index. rewrite elem_of_from_product.
    rewrite elem_of_pclasses, elem_of_sexes.
    split; [by intros (? & ? & ?)|]. intros [? ?]. split_and!; [done..|].
    destruct g; by apply (bool_decide_unpack _).
  - intros row (Hn & Hs & _)%demo_row_counts. split_and!; [done..|].
    intros Hnil. by rewrite Hn, Hs, Hnil.
Qed.

Lemma survival_demographics_complete_witness :
  length (survival_demographics sample) = 16%nat ∧
  (1, "male"%string, Senior) ∈ d_key <$> survival_demographics sample.
Proof.
  destruct (survival_demographics_complete sample) as (Hlen & _ & Hin & _).
  split.
  - rewrite Hlen. by vm_compute.
  - apply Hin. split.
    + eexists. split; [apply list_elem_of_further, list_elem_of_here|done].
    + eexists. split; [apply list_elem_of_here|done].
Defined.

(** ** [survival_demographics]: the rate *)

Section rate_facts.
Local Open Scope Qc_scope.

Lemma Qc_of_nat_pos (n : nat) : n ≠ 0%nat → 0 < Qc_of_Z (Z.of_nat n).
Proof. intros ?. rewrite <-Z2Qc_inj_0, <-Z2Qc_inj_lt. lia. Qed.

Lemma Qc_div_mul (x y : Qc) : 0 < y → x / y * y = x.
Proof.
  intros Hy. rewrite Qcmult_comm. apply Qcmult_div_r.
  intros ->. by apply (irreflexivity Qclt 0).
Qed.

(** A quotient of two counts, the upper one the smaller, is in [0,1]. *)
Lemma Qc_ratio_bounds (k n : nat) :
  (k ≤ n)%nat → n ≠ 0%nat →
  0 ≤ Qc_of_Z (Z.of_nat k) / Qc_of_Z (Z.of_nat n) ≤ 1.
Proof.
  intros Hkn Hn. pose proof (Qc_of_nat_pos n Hn) as Hpos. split.
  - apply (Qcmult_lt_0_le_reg_r _ _ _ Hpos).
    rewrite Qc_div_mul, Qcmult_0_l by done.
    rewrite <-Z2Qc_inj_0, <-Z2Qc_inj_le. lia.
  - apply (Qcmult_lt_0_le_reg_r _ _ _ Hpos).
    rewrite Qc_div_mul, Qcmult_1_l by done.
    rewrite <-Z2Qc_inj_le. lia.
Qed.

Lemma rate_or_zero_bounds (n k : nat) : (k ≤ n)%nat → 0 ≤ rate_or_zero n k ≤ 1.
Proof.
  intros Hkn. unfold rate_or_zero. case_decide.
  - split; [done|]. by rewrite <-Z2Qc_inj_0, <-Z2Qc_inj_1, <-Z2Qc_inj_le.
  - by apply Qc_ratio_bounds.
Qed.
End rate_facts.

(** C2: in every row of the table the rate is the quotient of survivors by
    passengers when there are passengers and is 0 when there are none, and
    it lies between 0 and 1. *)
Theorem survival_rate_spec {D} (df : DataFrame D) (row : DemoRow) :
  row ∈ survival_demographics df →
  ((0 < n_passengers row)%nat →
     survival_rate row
     = (Qc_of_Z (Z.of_nat (n_survivors row)) / Qc_of_Z (Z.of_nat (n_passengers row)))%Qc) ∧
  (n_passengers row = 0%nat → survival_rate row = 0%Qc) ∧
  (0 ≤ survival_rate row ≤ 1)%Qc.
Proof.
  intros (Hn & Hs & ->)%demo_row_counts. split_and!.
  - intros Hpos. unfold rate_or_zero. case_decide; [lia|done].
  - intros H0. unfold rate_or_zero. by rewrite decide_True.
  - apply rate_or_zero_bounds. rewrite Hn, Hs. apply length_filter.
  - apply rate_or_zero_bounds. rewrite Hn, Hs. apply length_filter.
Qed.

Lemma survival_rate_spec_witness :
  survival_rate sample_cell
  = (Qc_of_Z (Z.of_nat 1) / Qc_of_Z (Z.of_nat 1))%Qc ∧
  (0 ≤ survival_rate sample_cell ≤ 1)%Qc.
Proof.
  destruct (survival_rate_spec sample sample_cell) as (Hq & _ & Hb).
  - apply (list_elem_of_lookup_2 _ 8). vm_compute. reflexivity.
  - split; [apply Hq; simpl; lia|exact Hb].
Defined.

(** ** The order of a number type *)

Lemma Qc_lt_strict : StrictOrder (lt_of (D := Qc)).
Proof.
  split.
  - intros x Hx. apply bool_decide_eq_true in Hx.
    by apply (irreflexivity Qclt x).
  - intros x y z Hxy Hyz. apply bool_decide_eq_true in Hxy, Hyz.
    apply bool_decide_eq_true. by etrans.
Qed.

Lemma SFltb_irrefl (f : spec_float) : SFltb f f = false.
Proof.
  unfold SFltb. destruct f as [s|s| |s m e]; try destruct s; simpl;
    try reflexivity;
    rewrite Z.compare_refl; change (Pos.compare_cont Eq m m) with (Pos.compare m m);
    by rewrite Pos.compare_refl.
Qed.

Lemma SFltb_trans (f1 f2 f3 : spec_float) :
  SFltb f1 f2 = true → SFltb f2 f3 = true → SFltb f1 f3 = true.
Proof.
  unfold SFltb.
  destruct f1 as [s1|s1| |s1 m1 e1], f2 as [s2|s2| |s2 m2 e2],
    f3 as [s3|s3| |s3 m3 e3];
    try destruct s1; try destruct s2; try destruct s3; simpl;
    try discriminate; try reflexivity;
    change (Pos.compare_cont Eq) with Pos.compare;
    destruct (Z.compare_spec e1 e2), (Z.compare_spec e2 e3), (Z.compare_spec e1 e3);
    try discriminate; try reflexivity; try lia; subst;
    destruct (Pos.compare_spec m1 m2), (Pos.compare_spec m2 m3),
      (Pos.compare_spec m1 m3);
    simpl; try discriminate; try reflexivity; try lia.
Qed.

(** The order [<] of binary64 is a strict order on all its values. *)
Lemma float_lt_strict : StrictOrder (lt_of (D := PrimFloat.float)).
Proof.
  split.
  - intros x Hx. unfold lt_of in Hx. simpl in Hx.
    rewrite ltb_spec, SFltb_irrefl in Hx. done.
  - intros x y z. unfold lt_of; simpl. rewrite !ltb_spec. apply SFltb_trans.
Qed.

Section order_facts.
Context {D : Type} `{Arith D} (Hlt : StrictOrder (lt_of (D := D))).
Implicit Types (x y z acc val : D) (xs : list D).

Lemma lt_irrefl x : num_lt x x = false.
Proof. apply not_true_is_false. apply (irreflexivity lt_of x). Qed.

Lemma lt_asym x y : num_lt x y = true → num_lt y x = false.
Proof.
  intros Hxy. apply not_true_is_false. intros Hyx.
  apply (irreflexivity lt_of x). by trans y.
Qed.

Lemma lt_not_after x y z : num_lt x y = true → num_lt z y = false → num_lt z x = false.
Proof.
  intros Hxy Hzy. apply not_true_is_false. intros Hzx.
  rewrite (transitivity (R := lt_of) Hzx Hxy) in Hzy. done.
Qed.

Lemma not_after_total : Total (not_after (A := D)).
Proof.
  intros x y. unfold not_after. destruct (num_lt y x) eqn:Hyx; [|by left].
  right. by apply lt_asym.
Qed.

(** The value the minimum ends with is the one it started from, or less. *)
Lemma foldl_least_below acc xs :
  foldl Agg.least acc xs = acc ∨ num_lt (foldl Agg.least acc xs) acc = true.
Proof.
  revert acc. induction xs as [|val xs IH]; intros acc; [by left|].
  cbn [foldl]. destruct (IH (Agg.least acc val)) as [->| Hlt'];
    unfold Agg.least in *; destruct (num_lt val acc) eqn:Hva; auto.
  right. by apply (transitivity (R := lt_of) Hlt').
Qed.

Lemma foldl_greatest_above acc xs :
  foldl Agg.greatest acc xs = acc ∨ num_lt acc (foldl Agg.greatest acc xs) = true.
Proof.
  revert acc. induction xs as [|val xs IH]; intros acc; [by left|].
  cbn [foldl]. destruct (IH (Agg.greatest acc val)) as [->| Hlt'];
    unfold Agg.greatest in *; destruct (num_lt acc val) eqn:Hva; auto.
  right. by apply (transitivity (R := lt_of) Hva).
Qed.

(** No value of the list is less than its minimum, none greater than its
    maximum. *)
Lemma foldl_least_lower acc xs y :
  y ∈ acc :: xs → num_lt y (foldl Agg.least acc xs) = false.
Proof.
  revert acc. induction xs as [|val xs IH]; intros acc Hy.
  - apply list_elem_of_singleton in Hy as ->. apply lt_irrefl.
  - cbn [foldl].
    assert (y ∈ xs ∨ num_lt y (Agg.least acc val) = false) as [Hin|Hacc].
    { apply elem_of_cons in Hy as [->|Hy]; [|apply elem_of_cons in Hy as [->|Hy]];
        [right..|by left]; unfold Agg.least; destruct (num_lt val acc) eqn:Hva;
        auto using lt_irrefl, lt_asym. }
    + apply IH. by right.
    + destruct (foldl_least_below (Agg.least acc val) xs) as [->|Hbelow]; [done|].
      by apply (lt_not_after _ (Agg.least acc val)).
Qed.

Lemma foldl_greatest_upper acc xs y :
  y ∈ acc :: xs → num_lt (foldl Agg.greatest acc xs) y = false.
Proof.
  revert acc. induction xs as [|val xs IH]; intros acc Hy.
  - apply list_elem_of_singleton in Hy as ->. apply lt_irrefl.
  - cbn [foldl].
    assert (y ∈ xs ∨ num_lt (Agg.greatest acc val) y = false) as [Hin|Hacc].
    { apply elem_of_cons in Hy as [->|Hy]; [|apply elem_of_cons in Hy as [->|Hy]];
        [right..|by left]; unfold Agg.greatest; destruct (num_lt acc val) eqn:Hva;
        auto using lt_irrefl, lt_asym. }
    + apply IH. by right.
    + destruct (foldl_greatest_above (Agg.greatest acc val) xs) as [->|Habove];
        [done|].
      apply not_true_is_false. intros Hlt'.
      rewrite (transitivity (R := lt_of) Habove Hlt') in Hacc. done.
Qed.
End order_facts.

Lemma foldl_least_elem {D} `{Arith D} (x : D) (xs : list D) :
  foldl Agg.least x xs ∈ x :: xs.
Proof.
  revert x. induction xs as [|z xs IH]; intros x; simpl; [left|].
  specialize (IH (Agg.least x z)). apply elem_of_cons in IH as [->|?].
  - unfold Agg.least. destruct (num_lt z x); [right; left|left].
  - by do 2 right.
Qed.

Lemma foldl_greatest_elem {D} `{Arith D} (x : D) (xs : list D) :
  foldl Agg.greatest x xs ∈ x :: xs.
Proof.
  revert x. induction xs as [|z xs IH]; intros x; simpl; [left|].
  specialize (IH (Agg.greatest x z)). apply elem_of_cons in IH as [->|?].
  - unfold Agg.greatest. destruct (num_lt x z); [right; left|left].
  - by do 2 right.
Qed.

(** ** Sums of integer columns *)

Lemma wrap64_small (z : Z) : - 2 ^ 63 ≤ z ≤ 2 ^ 63 - 1 → Pd.wrap64 z = z.
Proof. intros Hz. unfold Pd.wrap64. rewrite Z.mod_small; lia. Qed.

Lemma round53_small (z : Z) : Z.abs z ≤ 2 ^ 53 → Pd.round53 z = z.
Proof. intros Hz. unfold Pd.round53. by rewrite decide_True. Qed.

(** Up to 2^53 the two roundings, and up to the greatest [int64] the
    wrap-around, leave the sum of two counts and one as it is. *)
Lemma family_size_exact {A D} (df : list (Row A D)) (r : Row A D) :
  0 ≤ siblings r → 0 ≤ parents r →
  siblings r + parents r + 1 ≤ exact_up_to df →
  family_size df r = siblings r + parents r + 1.
Proof.
  unfold family_size, exact_up_to, siblings, parents, Pd.fillna.
  set (s := default 0 (SibSp r)). set (p := default 0 (Parch r)).
  intros Hs Hp Hsum.
  destruct (Pd.count_dtype (SibSp <$> df)), (Pd.count_dtype (Parch <$> df));
    cbn [Pd.sum_dtype Pd.add_counts Pd.add_literal] in *.
  - rewrite (wrap64_small (s + p)) by lia. apply wrap64_small. lia.
  - rewrite (round53_small s), (round53_small p) by lia.
    rewrite (round53_small (s + p)) by lia. apply round53_small. lia.
  - rewrite (round53_small s), (round53_small p) by lia.
    rewrite (round53_small (s + p)) by lia. apply round53_small. lia.
  - rewrite (round53_small s), (round53_small p) by lia.
    rewrite (round53_small (s + p)) by lia. apply round53_small. lia.
Qed.

(** With a count missing the sums are binary64 sums: 2^53 siblings and
    one more person are 2^53, where the integer sum is odd. *)
Example family_size_rounds :
  family_size siblings_2_53 <$> siblings_2_53 = [2 ^ 53; 1] ∧
  (λ r, siblings r + parents r + 1) <$> siblings_2_53 = [2 ^ 53 + 1; 1].
Proof. split; by vm_compute. Qed.

(** The rounding of an integer to binary64 is the conversion of the
    kernel's binary64 numbers: the integer and its rounding are converted
    to the same number, and the rounding is converted exactly. *)
Example round53_probe :
  Forall (λ z, FloatOps.Prim2SF (PrimFloat.of_uint63 (Uint63.of_Z z))
               = FloatOps.Prim2SF (PrimFloat.of_uint63 (Uint63.of_Z (Pd.round53 z))))
    [2 ^ 53 + 1; 2 ^ 53 + 3; 2 ^ 54 + 2; 2 ^ 54 + 6; 2 ^ 62 + 511; 2 ^ 62 + 513;
     2 ^ 63 - 1025] ∧
  Pd.round53 <$> [2 ^ 53 + 1; 2 ^ 53 + 3; 2 ^ 54 + 2; 2 ^ 54 + 6; 2 ^ 63 - 1]
  = [2 ^ 53; 2 ^ 53 + 4; 2 ^ 54; 2 ^ 54 + 8; 2 ^ 63] ∧
  FloatOps.Prim2SF (PrimFloat.of_uint63 (Uint63.of_Z (2 ^ 54 + 6)))
  = S754_finite false (2 ^ 52 + 2) 2.
Proof.
  split_and!; [|by vm_compute..].
  repeat (constructor; [by vm_compute|]). constructor.
Qed.

(** ** [family_groups] *)

Lemma fam_key_Some {A D} (df : list (Row A D)) (r : Row A D) (k : FamKey) :
  fam_key df r = Some k ↔ Pclass r = Some k.1 ∧ family_size df r = k.2.
Proof.
  unfold fam_key. destruct k as [c n]; simpl.
  destruct (Pclass r); simpl; (split; [intros ?|intros [? ?]]; by simplify_eq).
Qed.

Lemma f_key_fam_row {A D} `{Arith D} (df : list (Row A D)) (k : FamKey) :
  f_key (fam_row df k) = k.
Proof. by destruct k. Qed.

Lemma elem_of_family_groups {A D} `{Arith D} (df : list (Row A D)) (row : FamRow D) :
  row ∈ family_groups df ↔
  ∃ k, (∃ r, r ∈ df ∧ fam_key df r = Some k) ∧ row = fam_row df k.
Proof.
  unfold family_groups. rewrite merge_sort_Permutation, list_elem_of_fmap.
  setoid_rewrite merge_sort_Permutation.
  setoid_rewrite elem_of_unique. setoid_rewrite dropna_fmap.
  setoid_rewrite list_elem_of_omap.
  split; [intros (k & -> & ?)|intros (k & ? & ->)]; eauto.
Qed.

(** C6, as stated, fails where the sum leaves the range of its column: for
    a passenger with the greatest [int64] number of siblings the family
    size wraps around to the least [int64], which is neither the two
    counts plus one nor at least 1, and the table has a row of that
    family size. *)
Lemma family_size_wraps :
  family_size siblings_max <$> siblings_max = [- 2 ^ 63] ∧
  (λ r, siblings r + parents r + 1) <$> siblings_max = [2 ^ 63] ∧
  f_family_size <$> family_groups siblings_max = [- 2 ^ 63].
Proof. split_and!; by vm_compute. Qed.

(** C6 (amended): when no count of the table is negative and, in every
    row, the two counts plus one do not exceed the greatest value to which
    the sums of the two columns are exact, the family size of a source row
    is its two counts plus one, a missing count being 0; every row of the
    output table carries the family size of a source row of its class,
    hence a family size of at least 1. *)
Theorem family_size_spec {A D} `{Arith D} (df : list (Row A D)) :
  (∀ r, r ∈ df →
     0 ≤ siblings r ∧ 0 ≤ parents r ∧
     siblings r + parents r + 1 ≤ exact_up_to df) →
  (∀ r, r ∈ df → family_size df r = siblings r + parents r + 1) ∧
  (∀ row, row ∈ family_groups df →
     1 ≤ f_family_size row ∧
     ∃ r, r ∈ df ∧ Pclass r = Some (f_Pclass row) ∧
       f_family_size row = siblings r + parents r + 1).
Proof.
  intros Hrange.
  assert (∀ r, r ∈ df → family_size df r = siblings r + parents r + 1) as Hsize.
  { intros r (? & ? & ?)%Hrange. by apply family_size_exact. }
  split; [done|].
  intros row (k & (r & Hr & Hk) & ->)%elem_of_family_groups.
  apply fam_key_Some in Hk as [Hc Hn]. simpl.
  rewrite <-Hn, (Hsize r Hr). destruct (Hrange r Hr) as (? & ? & _).
  split; [lia|]. by exists r.
Qed.

Lemma family_size_spec_witness :
  Forall (λ r, family_size three_fares r = siblings r + parents r + 1) three_fares ∧
  Forall (λ row, 1 ≤ f_family_size row) (family_groups sample).
Proof.
  assert (∀ A D (df : list (Row A D)),
    bool_decide (Forall (λ r, 0 ≤ siblings r ∧ 0 ≤ parents r ∧
      siblings r + parents r + 1 ≤ exact_up_to df) df) = true →
    ∀ r, r ∈ df → 0 ≤ siblings r ∧ 0 ≤ parents r ∧
      siblings r + parents r + 1 ≤ exact_up_to df) as Hcheck.
  { intros A D df Hdf%bool_decide_eq_true. by apply Forall_forall. }
  destruct (family_size_spec three_fares) as [Hsize _];
    [apply Hcheck; by vm_compute|].
  destruct (family_size_spec sample) as [_ Hrows];
    [apply Hcheck; by vm_compute|].
  split; apply Forall_forall; [done|]. intros row Hrow. by apply Hrows.
Defined.

Lemma dropna_all_missing {A} (col : list (option A)) :
  (∀ x, x ∈ col → x = None) → Pd.dropna col = [].
Proof.
  unfold Pd.dropna. induction col as [|x col IH]; intros Hcol; csimpl; [done|].
  rewrite (Hcol x) by left. simpl. apply IH. intros y ?. apply Hcol. by right.
Qed.

(** C9: in a row of the output whose group has no fare at all, the mean,
    the minimum and the maximum fare are all missing; no value stands in
    for them. *)
Theorem family_groups_missing_fares {D} `{Arith D} (df : DataFrame D) (row : FamRow D) :
  row ∈ family_groups df →
  (∀ r, r ∈ df → Pclass r = Some (f_Pclass row) →
        family_size df r = f_family_size row → Fare r = None) →
  avg_fare row = None ∧ min_fare row = None ∧ max_fare row = None.
Proof.
  intros (k & _ & ->)%elem_of_family_groups Hmiss. simpl in *.
  assert (Pd.dropna (Fare <$> fam_group df k) = []) as Hnil.
  { apply dropna_all_missing. intros x (r & -> & Hr)%list_elem_of_fmap.
    apply list_elem_of_filter in Hr as [[? ?]%fam_key_Some ?]. by apply Hmiss. }
  unfold Agg.mean, Agg.min, Agg.max. by rewrite Hnil.
Qed.

Lemma family_groups_missing_fares_witness :
  Forall (λ row, avg_fare row = None ∧ min_fare row = None ∧ max_fare row = None)
    (family_groups no_fares).
Proof.
  apply Forall_forall. intros row Hrow.
  apply (family_groups_missing_fares no_fares row Hrow).
  intros r Hr _ _. unfold no_fares in Hr.
  repeat (apply elem_of_cons in Hr as [->|Hr]; [reflexivity|]).
  by apply elem_of_nil in Hr.
Defined.

(** ** Fare statistics in exact arithmetic *)

Section fare_stats.
Local Open Scope Qc_scope.
Implicit Types (x y lo hi acc : Qc) (xs : list Qc).

(** In exact arithmetic nothing is lost to be compensated: the running
    sum is the sum. *)
Lemma exact_sum_cons x xs : exact_sum (x :: xs) = x + exact_sum xs.
Proof. done. Qed.

Lemma foldl_compensated_exact acc xs :
  foldl Agg.compensated (acc, 0) xs = (acc + exact_sum xs, 0).
Proof.
  revert acc. induction xs as [|x xs IH]; intros acc; cbn [foldl];
    [|rewrite exact_sum_cons].
  - unfold exact_sum. simpl. by rewrite Qcplus_0_r.
  - assert (Agg.compensated (acc, 0) x = (acc + x, 0)) as ->.
    { unfold Agg.compensated. cbn [num_sub num_add num_eqb num_zero Qc_arith].
      assert (acc + (x - 0) - acc - (x - 0) = 0) as -> by ring.
      rewrite bool_decide_eq_true_2 by done. f_equal. ring. }
    rewrite IH. f_equal. ring.
Qed.

Lemma sum_exact xs : Agg.sum xs = exact_sum xs.
Proof.
  unfold Agg.sum. cbn [num_zero Qc_arith].
  by rewrite foldl_compensated_exact, Qcplus_0_l.
Qed.

Lemma Qc_of_nat_S (n : nat) :
  Qc_of_Z (Z.of_nat (S n)) = 1 + Qc_of_Z (Z.of_nat n).
Proof. by rewrite Nat2Z.inj_succ, <-Z.add_1_l, Z2Qc_inj_add, Z2Qc_inj_1. Qed.

Lemma exact_sum_lower lo xs :
  (∀ y, y ∈ xs → lo ≤ y) → Qc_of_Z (Z.of_nat (length xs)) * lo ≤ exact_sum xs.
Proof.
  induction xs as [|x xs IH]; intros Hlo.
  - cbn [length exact_sum foldr]. change (Z.of_nat 0) with 0%Z.
    rewrite Z2Qc_inj_0, Qcmult_0_l. apply Qcle_refl.
  - rewrite exact_sum_cons. cbn [length]. rewrite Qc_of_nat_S.
    rewrite Qcmult_plus_distr_l, Qcmult_1_l.
    apply Qcplus_le_compat; [apply Hlo; left|].
    apply IH. intros y ?. apply Hlo. by right.
Qed.

Lemma exact_sum_upper hi xs :
  (∀ y, y ∈ xs → y ≤ hi) → exact_sum xs ≤ Qc_of_Z (Z.of_nat (length xs)) * hi.
Proof.
  induction xs as [|x xs IH]; intros Hhi.
  - cbn [length exact_sum foldr]. change (Z.of_nat 0) with 0%Z.
    rewrite Z2Qc_inj_0, Qcmult_0_l. apply Qcle_refl.
  - rewrite exact_sum_cons. cbn [length]. rewrite Qc_of_nat_S.
    rewrite Qcmult_plus_distr_l, Qcmult_1_l.
    apply Qcplus_le_compat; [apply Hhi; left|].
    apply IH. intros y ?. apply Hhi. by right.
Qed.

(** The exact mean of a non-empty list lies between two bounds of its
    values. *)
Lemma exact_mean_between lo hi xs :
  xs ≠ [] → (∀ y, y ∈ xs → lo ≤ y ∧ y ≤ hi) →
  let n := Qc_of_Z (Z.of_nat (length xs)) in
  lo ≤ exact_sum xs / n ∧ exact_sum xs / n ≤ hi.
Proof.
  intros Hne Hbounds n.
  assert (0 < n) as Hn.
  { apply Qc_of_nat_pos. by destruct xs. }
  split; apply (Qcmult_lt_0_le_reg_r _ _ _ Hn);
    rewrite Qc_div_mul by done; rewrite (Qcmult_comm _ n).
  - apply exact_sum_lower. intros y Hy. by apply Hbounds.
  - apply exact_sum_upper. intros y Hy. by apply Hbounds.
Qed.
End fare_stats.

(** C10, for the binary64 values the program stores, fails: for three
    passengers of one class and family size who each paid one tenth, the
    table has one row, whose mean fare is the next binary64 value above one
    tenth while its minimum and maximum fare are one tenth. *)
Lemma fare_mean_above_max_float64 :
  family_groups three_tenths
  = [mkFamRow 3 1 3 (Some tenth_succ) (Some tenth) (Some tenth)] ∧
  PrimFloat.ltb tenth tenth_succ = true.
Proof. split; by vm_compute. Qed.

(** The mean at binary64 keeps what an addition rounds away and gives it
    back to a later one: after 10^16 two fares of 1 are not lost. *)
Example compensated_mean :
  Agg.mean [Some 1e16%float; Some 1%float; Some 1%float]
  = Some (PrimFloat.div 10000000000000002%float 3%float) ∧
  PrimFloat.add (PrimFloat.add 1e16%float 1%float) 1%float = 1e16%float.
Proof. split; by vm_compute. Qed.

(** The three statistics of a row whose group has a fare. *)
Lemma fare_stats_present {A D} `{Arith D} (df : list (Row A D)) (k : FamKey) (x : D) :
  x ∈ omap Fare (fam_group df k) →
  ∃ y ys, omap Fare (fam_group df k) = y :: ys ∧
    min_fare (fam_row df k) = Some (foldl Agg.least y ys) ∧
    max_fare (fam_row df k) = Some (foldl Agg.greatest y ys) ∧
    avg_fare (fam_row df k)
    = Some (num_div (Agg.sum (y :: ys)) (num_of_count (length (y :: ys)))).
Proof.
  intros Hin. cbn [fam_row avg_fare min_fare max_fare].
  unfold Agg.mean, Agg.min, Agg.max. rewrite dropna_fmap.
  destruct (omap Fare (fam_group df k)) as [|y ys]; [by apply elem_of_nil in Hin|].
  by exists y, ys.
Qed.

(** C10 (amended): in a row of the output whose group has a fare, the three
    statistics are present, and the minimum and the maximum are fares of
    the group such that no fare of the group is less than the minimum or
    greater than the maximum; this holds in every arithmetic whose [<] is
    a strict order, binary64 among them. With exact arithmetic the mean
    is the sum of the fares of the group divided by their number and lies
    between the minimum and the maximum. *)
Theorem fare_stats_ordered :
  (∀ A D (HD : Arith D) (df : list (Row A D)) (row : FamRow D),
     StrictOrder (lt_of (D := D)) →
     row ∈ family_groups df →
     (∃ r, r ∈ df ∧ Pclass r = Some (f_Pclass row) ∧
           family_size df r = f_family_size row ∧ is_Some (Fare r)) →
     let fares := omap Fare (fam_group df (f_key row)) in
     ∃ lo avg hi,
       min_fare row = Some lo ∧ avg_fare row = Some avg ∧ max_fare row = Some hi ∧
       lo ∈ fares ∧ hi ∈ fares ∧ num_lt hi lo = false ∧
       ∀ x, x ∈ fares → num_lt x lo = false ∧ num_lt hi x = false) ∧
  (∀ A (df : list (Row A Qc)) (row : FamRow Qc),
     row ∈ family_groups df →
     (∃ r, r ∈ df ∧ Pclass r = Some (f_Pclass row) ∧
           family_size df r = f_family_size row ∧ is_Some (Fare r)) →
     let fares := omap Fare (fam_group df (f_key row)) in
     ∃ lo avg hi,
       min_fare row = Some lo ∧ avg_fare row = Some avg ∧ max_fare row = Some hi ∧
       avg = (exact_sum fares / Qc_of_Z (Z.of_nat (length fares)))%Qc ∧
       (lo ≤ avg ∧ avg ≤ hi)%Qc).
Proof.
  assert (∀ A D (HD : Arith D) (df : list (Row A D)) (row : FamRow D),
    row ∈ family_groups df →
    (∃ r, r ∈ df ∧ Pclass r = Some (f_Pclass row) ∧
          family_size df r = f_family_size row ∧ is_Some (Fare r)) →
    ∃ k x, row = fam_row df k ∧ x ∈ omap Fare (fam_group df k)) as Hgroup.
  { intros A D HD df row (k & _ & ->)%elem_of_family_groups (r & Hr & Hc & Hn & [x Hx]).
    exists k, x. split; [done|]. simpl in Hc, Hn.
    apply list_elem_of_omap. exists r. split; [|done].
    apply list_elem_of_filter. split; [|done]. by apply fam_key_Some. }
  split.
  - intros A D HD df row Hlt Hrow Hfare.
    destruct (Hgroup A D HD df row Hrow Hfare) as (k & x & -> & Hx).
    cbv zeta. rewrite f_key_fam_row.
    destruct (fare_stats_present df k x Hx) as (y & ys & -> & -> & -> & ->).
    eexists _, _, _. split_and!; try done.
    + apply foldl_least_elem.
    + apply foldl_greatest_elem.
    + apply (foldl_greatest_upper Hlt), foldl_least_elem.
    + intros z Hz. split;
        [by apply (foldl_least_lower Hlt)|by apply (foldl_greatest_upper Hlt)].
  - intros A df row Hrow Hfare.
    destruct (Hgroup A Qc _ df row Hrow Hfare) as (k & x & -> & Hx).
    cbv zeta. rewrite f_key_fam_row.
    destruct (fare_stats_present df k x Hx) as (y & ys & -> & -> & -> & ->).
    destruct (exact_mean_between (foldl Agg.least y ys)
                (foldl Agg.greatest y ys) (y :: ys)) as [Hlo Hhi]; [done| |].
    { intros z Hz. split; apply Qcnot_lt_le; apply (bool_decide_eq_false _).
      - by apply (foldl_least_lower Qc_lt_strict).
      - by apply (foldl_greatest_upper Qc_lt_strict). }
    eexists _, _, _. split_and!; [done..| | |];
      cbn [num_div num_of_count Qc_arith]; rewrite sum_exact; done.
Qed.

Lemma fare_stats_ordered_witness :
  Forall (λ row, ∃ lo hi,
    min_fare row = Some lo ∧ max_fare row = Some hi ∧
    PrimFloat.ltb hi lo = false) (family_groups three_fares) ∧
  Forall (λ row, ∃ lo avg hi,
    min_fare row = Some lo ∧ avg_fare row = Some avg ∧ max_fare row = Some hi ∧
    (lo ≤ avg ∧ avg ≤ hi)%Qc) (family_groups [aged_12_5]).
Proof.
  destruct fare_stats_ordered as [Hany Hexact].
  split; apply Forall_forall; intros row Hrow.
  - destruct (Hany _ _ _ three_fares row float_lt_strict Hrow)
      as (lo & avg & hi & ? & ? & ? & _ & _ & ? & _).
    + exists (paid 1 (Some 0) 7.25%float). split; [apply list_elem_of_here|].
      apply list_elem_of_lookup in Hrow as [i Hi].
      destruct i as [|i]; [|by destruct i].
      vm_compute in Hi. injection Hi as <-. vm_compute. eauto.
    + by exists lo, hi.
  - destruct (Hexact _ [aged_12_5] row Hrow)
      as (lo & avg & hi & ? & ? & ? & _ & ?).
    + exists aged_12_5. split; [apply list_elem_of_here|].
      apply list_elem_of_lookup in Hrow as [i Hi].
      destruct i as [|i]; [|by destruct i].
      vm_compute in Hi. injection Hi as <-. vm_compute. eauto.
    + by exists lo, avg, hi.
Defined.

(** ** [last_names]: the last name of a full name *)

Lemma app_String (c : ascii) (s t : string) :
  String c s +:+ t = String c (s +:+ t).
Proof. done. Qed.

Lemma partition_at_first (sep : ascii) (pre rest : string) :
  sep ∉ chars pre →
  partition_at sep (pre +:+ String sep rest) = Some (pre, rest).
Proof.
  induction pre as [|c pre IH]; intros Hpre.
  - change ("" +:+ String sep rest) with (String sep rest).
    simpl. by rewrite decide_True.
  - rewrite app_String. simpl in *. apply not_elem_of_cons in Hpre as [? ?].
    rewrite decide_False by done. by rewrite IH.
Qed.

Lemma partition_at_none (sep : ascii) (s : string) :
  sep ∉ chars s → partition_at sep s = None.
Proof.
  induction s as [|c s IH]; intros Hs; [done|].
  simpl in *. apply not_elem_of_cons in Hs as [? ?].
  rewrite decide_False by done. by rewrite IH.
Qed.

Lemma lstrip_spec (s : string) :
  ∃ l, s = l +:+ lstrip s ∧ all_space l ∧
    ∀ c t, lstrip s = String c t → is_space c = false.
Proof.
  induction s as [|c s (l & Hl & Hsp & Hhd)].
  - exists "". split_and!; [done|constructor|done].
  - simpl. destruct (is_space c) eqn:Hc.
    + exists (String c l). split_and!; [|by constructor|done].
      rewrite app_String. by f_equal.
    + exists "". split_and!; [done|constructor|].
      intros c' t [= <- <-]. done.
Qed.

Lemma rstrip_keeps_head (c : ascii) (s : string) :
  is_space c = false → ∃ t, rstrip (String c s) = String c t.
Proof. intros Hc. simpl. rewrite Hc. destruct (rstrip s); eauto. Qed.

Lemma rstrip_spec (s : string) :
  ∃ r, s = rstrip s +:+ r ∧ all_space r ∧
    ∀ c, last (chars (rstrip s)) = Some c → is_space c = false.
Proof.
  induction s as [|c s (r & Hr & Hsp & Hlast)].
  - exists "". split_and!; [done|constructor|done].
  - simpl. destruct (rstrip s) as [|d u] eqn:Hu.
    + change ("" +:+ r) with r in Hr. subst r.
      destruct (is_space c) eqn:Hc.
      * exists (String c s). split_and!; [done|by constructor|done].
      * exists s. split_and!; [done|done|]. intros c' [= <-]. done.
    + exists r. split_and!; [|done|].
      * rewrite app_String. by f_equal.
      * intros c'. cbn [chars]. rewrite last_cons_cons. apply Hlast.
Qed.

(** [strip] removes a run of whitespace at each end and nothing else. *)
Lemma strip_spec (s : string) :
  ∃ l r, s = l +:+ strip s +:+ r ∧ all_space l ∧ all_space r ∧ trimmed (strip s).
Proof.
  destruct (lstrip_spec s) as (l & Hl & Hlsp & Hhd).
  destruct (rstrip_spec (lstrip s)) as (r & Hr & Hrsp & Hlast).
  exists l, r. unfold strip. split_and!; [congruence|done..|].
  intros c [Hc|Hc]; [|by apply Hlast].
  destruct (lstrip s) as [|d t] eqn:Hd; [done|].
  pose proof (Hhd d t eq_refl) as Hsp.
  destruct (rstrip_keeps_head d t Hsp) as [t' Ht'].
  rewrite Ht' in Hc. simpl in Hc. by simplify_eq.
Qed.

(** ** [last_names]: the table of counts *)

Lemma last_name_is_Some (name : string) : is_Some (last_name name).
Proof.
  unfold last_name, split1.
  destruct (partition_at "," name) as [[a b]|]; simpl; eauto.
Qed.

Lemma sum_count_add (k : string) (acc : list (string * nat)) :
  sum_list (count_add k acc).*2 = S (sum_list acc.*2).
Proof.
  induction acc as [|[k' n] acc IH]; [done|].
  cbn [count_add]. case_decide; rewrite !fmap_cons; cbn [sum_list_with]; [done|].
  rewrite IH. unfold id; simpl. lia.
Qed.

Lemma keys_count_add (k k0 : string) (acc : list (string * nat)) :
  k0 ∈ (count_add k acc).*1 ↔ k0 = k ∨ k0 ∈ acc.*1.
Proof.
  induction acc as [|[k' n] acc IH]; simpl.
  - rewrite list_elem_of_singleton, elem_of_nil. tauto.
  - case_decide; subst; simpl; rewrite !elem_of_cons, ?IH; intuition congruence.
Qed.

Lemma sum_foldl_count_add (l : list string) (acc : list (string * nat)) :
  sum_list (foldl (λ acc k, count_add k acc) acc l).*2
  = (length l + sum_list acc.*2)%nat.
Proof.
  revert acc. induction l as [|k l IH]; intros acc; [done|].
  cbn [foldl length]. rewrite IH, sum_count_add. lia.
Qed.

Lemma keys_foldl_count_add (l : list string) (acc : list (string * nat)) (k0 : string) :
  k0 ∈ (foldl (λ acc k, count_add k acc) acc l).*1 ↔ k0 ∈ l ∨ k0 ∈ acc.*1.
Proof.
  revert acc. induction l as [|k l IH]; intros acc; simpl.
  - rewrite elem_of_nil. tauto.
  - rewrite IH, keys_count_add, elem_of_cons. tauto.
Qed.

Lemma insert_sorted_Permutation {A} (R : relation A) `{∀ x y, Decision (R x y)}
    (e : A) (l : list A) :
  Pd.insert_sorted R e l ≡ₚ e :: l.
Proof.
  induction l as [|x l IH]; [done|]. cbn [Pd.insert_sorted].
  case_decide; [|done]. by rewrite IH, Permutation_swap.
Qed.

Lemma sort_stable_Permutation {A} (R : relation A) `{∀ x y, Decision (R x y)}
    (l : list A) :
  Pd.sort_stable R l ≡ₚ l.
Proof.
  unfold Pd.sort_stable.
  assert (∀ acc, foldl (λ acc e, Pd.insert_sorted R e acc) acc l ≡ₚ acc ++ l)
    as Hacc; [|by rewrite Hacc].
  induction l as [|e l IH]; intros acc; cbn [foldl].
  - by rewrite app_nil_r.
  - rewrite IH, insert_sorted_Permutation. apply Permutation_middle.
Qed.

Lemma insert_sorted_sorted {A} (R : relation A) `{∀ x y, Decision (R x y)}
    `{!Transitive R, !Total R} (e : A) (l : list A) :
  StronglySorted R l → StronglySorted R (Pd.insert_sorted R e l).
Proof.
  induction 1 as [|x l Hl IH Hx]; cbn [Pd.insert_sorted].
  - repeat constructor.
  - case_decide as Hxe.
    + constructor; [done|]. rewrite insert_sorted_Permutation.
      by constructor.
    + assert (R e x) as Hex by (by destruct (total R e x)).
      constructor; [by constructor|]. constructor; [done|].
      eapply Forall_impl; [exact Hx|]. intros y ?. by trans x.
Qed.

Lemma sort_stable_sorted {A} (R : relation A) `{∀ x y, Decision (R x y)}
    `{!Transitive R, !Total R} (l : list A) :
  StronglySorted R (Pd.sort_stable R l).
Proof.
  unfold Pd.sort_stable.
  assert (∀ acc, StronglySorted R acc →
    StronglySorted R (foldl (λ acc e, Pd.insert_sorted R e acc) acc l)) as Hacc;
    [|apply Hacc; constructor].
  induction l as [|e l IH]; intros acc Hs; cbn [foldl]; [done|].
  by apply IH, insert_sorted_sorted.
Qed.

Lemma count_ge_sorted (l : list (string * nat)) :
  StronglySorted count_ge (Pd.sort_stable count_ge l).
Proof.
  apply sort_stable_sorted.
  - intros e1 e2 e3. unfold count_ge. lia.
  - intros e1 e2. unfold count_ge. lia.
Qed.

(** Among names of the same count, the earlier one stays first. *)
Example last_names_ties :
  last_names [aged 1 None 1; aged_12_5; age_missing; aged_12_5]
  = [("Doe", 3%nat); ("Roe", 1%nat)] ∧
  Pd.sort_stable count_ge [("a", 1); ("b", 2); ("c", 1); ("d", 2); ("e", 1)]%nat
  = [("b", 2); ("d", 2); ("a", 1); ("c", 1); ("e", 1)]%nat.
Proof. split; by vm_compute. Qed.

Lemma last_names_Permutation {A D} (df : list (Row A D)) :
  last_names df ≡ₚ
  foldl (λ acc k, count_add k acc) [] (omap (last_name ∘ Name) df).
Proof.
  unfold last_names, value_counts.
  by rewrite !sort_stable_Permutation, dropna_fmap.
Qed.

Lemma length_omap_total {A B} (f : A → option B) (l : list A) :
  (∀ x, is_Some (f x)) → length (omap f l) = length l.
Proof.
  intros Hf. induction l as [|x l IH]; csimpl; [done|].
  destruct (Hf x) as [y ->]. simpl. by rewrite IH.
Qed.

(** C8: the counts of the table of last names add up to the number of
    rows of the source table. *)
Theorem last_names_total {D} (df : DataFrame D) :
  sum_list (last_names df).*2 = length df.
Proof.
  rewrite last_names_Permutation, sum_foldl_count_add.
  rewrite length_omap_total; [by rewrite Nat.add_0_r|].
  intros r. apply last_name_is_Some.
Qed.

(** Every row is counted under its last name, and only last names of rows
    are counted. *)
Lemma last_names_keys {A D} (df : list (Row A D)) (k : string) :
  k ∈ (last_names df).*1 ↔ ∃ r, r ∈ df ∧ last_name (Name r) = Some k.
Proof.
  rewrite last_names_Permutation, keys_foldl_count_add.
  rewrite list_elem_of_omap. simpl. rewrite elem_of_nil.
  split; [intros [?|[]]|intros ?; left]; done.
Qed.

(** The characters [strip] removes are the whitespace characters. *)
Lemma is_space_whitespace (c : ascii) : is_space c = true ↔ c ∈ whitespace.
Proof.
  assert (is_space c = bool_decide (c ∈ whitespace)) as ->
    by (destruct c as [[] [] [] [] [] [] [] []]; by vm_compute).
  apply bool_decide_eq_true.
Qed.

(** C7: the last name under which [last_names] counts a row is the text of
    its name before the first comma, or the whole name when it has no
    comma, stripped: what is removed is a run of whitespace characters at
    each end, and what is left neither begins nor ends with one. The two
    names of the specification give the last names it states, and
    whitespace around a last name is removed. *)
Theorem last_name_spec (name : string) :
  (∀ pre rest, name = pre +:+ "," +:+ rest → ","%char ∉ chars pre →
     last_name name = Some (strip pre)) ∧
  (","%char ∉ chars name → last_name name = Some (strip name)) ∧
  (∀ s, ∃ l r, s = l +:+ strip s +:+ r ∧
     Forall (λ c, c ∈ whitespace) (chars l) ∧
     Forall (λ c, c ∈ whitespace) (chars r) ∧
     ∀ c, head (chars (strip s)) = Some c ∨ last (chars (strip s)) = Some c →
          c ∉ whitespace) ∧
  (∀ A D (df : list (Row A D)), name ∈ Name <$> df →
     ∃ k, last_name name = Some k ∧ k ∈ (last_names df).*1) ∧
  last_name "O'Brien, Mary" = Some "O'Brien" ∧
  last_name "Smith, John" = Some "Smith" ∧
  last_name "  van Melkebeke , Mr. Philemon, jr" = Some "van Melkebeke" ∧
  last_name " Madonna  " = Some "Madonna".
Proof.
  split_and!.
  - intros pre rest -> Hpre. unfold last_name, split1.
    change ("," +:+ rest) with (String "," rest).
    by rewrite partition_at_first.
  - intros Hname. unfold last_name, split1. by rewrite partition_at_none.
  - intros s. destruct (strip_spec s) as (l & r & Hs & Hl & Hr & Htrim).
    exists l, r. split_and!; [done|..].
    + eapply Forall_impl; [exact Hl|]. intros c. apply is_space_whitespace.
    + eapply Forall_impl; [exact Hr|]. intros c. apply is_space_whitespace.
    + intros c Hc Hin. apply is_space_whitespace in Hin.
      by rewrite (Htrim c Hc) in Hin.
  - intros A D df (r & -> & Hr)%list_elem_of_fmap.
    destruct (last_name_is_Some (Name r)) as [k Hk]. exists k. split; [done|].
    apply last_names_keys. eauto.
  - reflexivity.
  - reflexivity.
  - reflexivity.
  - reflexivity.
Qed.

Lemma last_name_spec_witness :
  last_name "Braund , Mr. Owen Harris" = Some (strip "Braund ") ∧
  strip "Braund " = "Braund" ∧
  last_name "  Cher " = Some (strip "  Cher ") ∧
  strip "  Cher " = "Cher".
Proof.
  destruct (last_name_spec "Braund , Mr. Owen Harris") as (Hpre & _).
  destruct (last_name_spec "  Cher ") as (_ & Hnone & _).
  split_and!; [|reflexivity| |reflexivity].
  - apply (Hpre "Braund " " Mr. Owen Harris"); [reflexivity|].
    apply (bool_decide_unpack _). by vm_compute.
  - apply Hnone. apply (bool_decide_unpack _). by vm_compute.
Defined.

(** ** [determine_age_division] *)

Example median_probe :
  median (Some <$> (Qc_of_Z <$> [3; 1; 2])) = Some (Qc_of_Z 2) ∧
  median (Some <$> (Qc_of_Z <$> [4; 1; 3; 2])) = Some (Q2Qc (5 # 2)) ∧
  median [None; Some (Qc_of_Z 7); None] = Some (Qc_of_Z 7) ∧
  median (A := Qc) [None; None] = None ∧
  median [Some 3%float; None; Some 0.5%float; Some 2%float; Some 1%float]
  = Some 1.5%float.
Proof. split_and!; by vm_compute. Qed.

(** The median is the middle of the values present, put in ascending
    order by [merge_sort]. *)
Lemma median_middle {A} `{Arith A} (col : list (option A)) :
  median col = middle (merge_sort not_after (Pd.dropna col)).
Proof. done. Qed.

Lemma loc_class_medians {A D} `{Arith A} (df : list (Row A D)) (c : Z) :
  Pd.loc c (class_medians df)
  = if decide (c ∈ pclasses df) then Some (class_median df c) else None.
Proof. apply loc_fmap. Qed.

(** The flag of one row, once the lookup has succeeded. *)
Lemma older_passenger_flag {A D} `{Arith A} (df : list (Row A D)) (r : Row A D)
    (b : bool) :
  older_passenger (class_medians df) r = Some b →
  match Age r with
  | None => b = false
  | Some a =>
      ∃ c, Pclass r = Some c ∧
        b = from_option (λ m, num_lt m a) false (class_median df c)
  end.
Proof.
  unfold older_passenger. destruct (Age r) as [a|]; [|by intros [= <-]].
  destruct (Pclass r) as [c|]; simpl; [|done].
  rewrite loc_class_medians. case_decide; simpl; [|done].
  intros [= <-]. exists c. split; [done|]. by destruct (class_median df c).
Qed.


Lemma older_passenger_total {A D} `{Arith A} (df : list (Row A D)) (r : Row A D) :
  r ∈ df → (is_Some (Age r) → is_Some (Pclass r)) →
  is_Some (older_passenger (class_medians df) r).
Proof.
  intros Hr Hc. unfold older_passenger. destruct (Age r) as [a|]; [|by eexists].
  destruct Hc as [c Hc]; [by eexists|]. rewrite Hc. simpl.
  rewrite loc_class_medians, decide_True; [by eexists|].
  apply elem_of_pclasses. eauto.
Qed.

Lemma mapM_tagged {A B} (f : A → option B) (l : list A) (t : list (A * B)) :
  mapM (λ x, y ← f x; Some (x, y)) l = Some t →
  t.*1 = l ∧ ∀ x y, (x, y) ∈ t → x ∈ l ∧ f x = Some y.
Proof.
  intros Ht%mapM_Some. induction Ht as [|x [x' y] l t Hx _ [IH1 IH2]].
  - split; [done|]. intros ? ? ?%elem_of_nil. done.
  - destruct (f x) as [y'|] eqn:Hfx; simplify_eq/=. split; [done|].
    intros x0 y0 [?|?]%elem_of_cons; simplify_eq.
    + split; [left|done].
    + destruct (IH2 x0 y0) as [? ?]; [done|]. split; [by right|done].
Qed.

(** The class median is the middle of the ages of the class in an
    ascending order. *)
Lemma class_median_middle {A D} `{Arith A} (df : list (Row A D)) (c : Z) :
  StrictOrder (lt_of (D := A)) →
  ∃ s, s ≡ₚ class_ages df c ∧ Sorted not_after s ∧ class_median df c = middle s.
Proof.
  intros Hlt. pose proof (not_after_total Hlt).
  exists (merge_sort not_after (class_ages df c)). split_and!.
  - apply merge_sort_Permutation.
  - by apply Sorted_merge_sort.
  - unfold class_median, class_ages. by rewrite median_middle, dropna_fmap.
Qed.

(** C4, with the median of the specification (for an even count the
    average of the two middle values), fails for the binary64 ages the
    program compares: in a class of two passengers whose ages are the
    first and the second binary64 value after 1, the sum of the two ages
    is rounded and its half, the median the program computes, is the
    greater age itself; the older passenger is not flagged, though the
    age is greater than the other one and so than their average. With the
    same two ages in exact arithmetic the median is their average and the
    older passenger is flagged. *)
Lemma older_neighbour_not_flagged :
  determine_age_division neighbours64
  = Some [(aged64 1 (Some age_lo), false); (aged64 2 (Some age_hi), false)] ∧
  class_median neighbours64 3 = Some age_hi ∧
  PrimFloat.ltb age_lo age_hi = true ∧
  FloatOps.Prim2SF age_lo = S754_finite false (2 ^ 52 + 1) (-52) ∧
  FloatOps.Prim2SF age_hi = S754_finite false (2 ^ 52 + 2) (-52) ∧
  class_median neighbours 3 = Some (Q2Qc (2 ^ 53 + 3 # 2 ^ 53)) ∧
  (λ t, t.*2) <$> determine_age_division neighbours = Some [false; true].
Proof. split_and!; by vm_compute. Qed.

(** C4 (amended): in every arithmetic whose [<] is a strict order, binary64
    among them: when [determine_age_division] returns, the table it
    returns is the source table with one flag per row; the flag of a row
    without an age is false; the flag of a row with an age says whether
    the median of its class is less than that age, where the median is
    the middle of the ages recorded in the class in ascending order, for
    an even count the sum of the two middle ages divided by two in the
    arithmetic of the column; so the flag is false for a row whose age is
    that median. It returns whenever every row that has an age has a
    class. *)
Theorem determine_age_division_spec {A D} `{Arith A} (df : list (Row A D)) :
  StrictOrder (lt_of (D := A)) →
  (∀ t, determine_age_division df = Some t →
     t.*1 = df ∧
     ∀ r b, (r, b) ∈ t →
       (Age r = None → b = false) ∧
       (∀ a c, Age r = Some a → Pclass r = Some c →
          ∃ s, s ≡ₚ class_ages df c ∧ Sorted (λ x y, num_lt y x = false) s ∧
            class_median df c = middle s ∧
            b = from_option (λ m, num_lt m a) false (middle s) ∧
            (middle s = Some a → b = false))) ∧
  ((∀ r, r ∈ df → is_Some (Age r) → is_Some (Pclass r)) →
   is_Some (determine_age_division df)).
Proof.
  intros Hlt. split.
  - intros t [Hfst Hrows]%mapM_tagged. split; [done|].
    intros r b [_ Hb%older_passenger_flag]%Hrows. split.
    + intros Hage. by rewrite Hage in Hb.
    + intros a c Ha Hc. rewrite Ha in Hb. destruct Hb as (c' & Hc' & Hb).
      assert (c' = c) as -> by congruence.
      destruct (class_median_middle df c Hlt) as (s & Hperm & Hsorted & Hmid).
      exists s. rewrite <-Hmid. split_and!; [done..|].
      intros Hm. rewrite Hb, Hm. simpl. by apply lt_irrefl.
  - intros Hcls. apply mapM_is_Some, Forall_forall. intros r Hr. simpl.
    destruct (older_passenger_total df r Hr (Hcls r Hr)) as [b ->]. by eexists.
Qed.

Lemma determine_age_division_spec_witness :
  ∃ t, determine_age_division third_class64 = Some t ∧
    t.*1 = third_class64 ∧ t.*2 = [true; false; false; false].
Proof.
  destruct (determine_age_division_spec third_class64 float_lt_strict)
    as [Hspec Htotal].
  destruct Htotal as [t Ht].
  - intros r Hr _. unfold third_class64 in Hr.
    repeat (apply elem_of_cons in Hr as [->|Hr]; [by eexists|]).
    by apply elem_of_nil in Hr.
  - exists t. split; [done|]. split; [by apply Hspec|].
    vm_compute in Ht. by injection Ht as <-.
Defined.

(** The lookup of the median of a missing class raises. *)
Example determine_age_division_classless :
  determine_age_division classless = None.
Proof. reflexivity. Qed.

(** The specification's example: with a class median of 24, the passenger
    aged 30 is flagged and the passenger aged 24 is not; in exact
    arithmetic and at binary64. *)
Example determine_age_division_third_class :
  class_median third_class 3 = Some (Qc_of_Z 24) ∧
  (λ e, (Age e.1, e.2)) <$> default [] (determine_age_division third_class)
  = [ (Some (Qc_of_Z 30), true); (Some (Qc_of_Z 24), false);
      (Some (Qc_of_Z 20), false); (None, false) ] ∧
  class_median third_class64 3 = Some 24%float ∧
  (λ e, (Age e.1, e.2)) <$> default [] (determine_age_division third_class64)
  = [ (Some 30%float, true); (Some 24%float, false);
      (Some 20%float, false); (None, false) ].
Proof. split_and!; by vm_compute. Qed.

(** ** The summary of [visualize_age_division] *)

Lemma elem_of_add_survival_rate (grouped : list DivAgg) (row : DivRow) :
  row ∈ add_survival_rate grouped ↔
  v_agg row ∈ grouped ∧
  v_survival_rate row
  = div_na (a_n_survivors row) (replace_zero_na (a_n_passengers row)).
Proof.
  unfold add_survival_rate. rewrite list_elem_of_fmap. split.
  - intros (g & -> & ?). done.
  - intros [? Hrate]. exists (v_agg row). split; [|done].
    destruct row as [g rate]; simpl in *. by rewrite Hrate.
Qed.

Lemma div_key_Some {D} (e : Passenger D * bool) (k : DivKey) :
  div_key e = Some k ↔ Pclass e.1 = Some k.1 ∧ e.2 = k.2.
Proof.
  unfold div_key. destruct k as [c b], e as [r b']; simpl.
  destruct (Pclass r); simpl; (split; [intros ?|intros [? ?]]; by simplify_eq).
Qed.

(** A group of the summary is a group of observed rows: it has a member. *)
Lemma grouped_division_nonempty {D} (t : list (Passenger D * bool)) (g : DivAgg) :
  g ∈ grouped_division t → (0 < a_n_passengers g)%nat.
Proof.
  unfold grouped_division. rewrite list_elem_of_fmap.
  intros (k & -> & Hk). simpl.
  rewrite merge_sort_Permutation, elem_of_unique, dropna_fmap in Hk.
  apply list_elem_of_omap in Hk as (e & He & Hek).
  assert (e ∈ filter (λ e, div_key e = Some k) t) as Hin
    by (by apply list_elem_of_filter).
  destruct (filter _ t); [by apply elem_of_nil in Hin|simpl; lia].
Qed.

(** C5: the rate column of the age-division summary holds, for a group with
    a positive count, the quotient of survivors by count, and for a group
    with count 0 a missing value, where [survival_demographics] puts 0; in
    the summary built from a passenger table every group has a positive
    count, so every rate is the quotient. *)
Theorem age_division_rate_spec :
  (∀ (grouped : list DivAgg) (row : DivRow),
     row ∈ add_survival_rate grouped →
     ((0 < a_n_passengers row)%nat →
        v_survival_rate row
        = Some (Qc_of_Z (Z.of_nat (a_n_survivors row))
                / Qc_of_Z (Z.of_nat (a_n_passengers row)))%Qc) ∧
     (a_n_passengers row = 0%nat →
        v_survival_rate row = None ∧
        rate_or_zero (a_n_passengers row) (a_n_survivors row) = 0%Qc)) ∧
  (∀ D (df : DataFrame D) (t : list DivRow) (row : DivRow),
     visualize_age_division df = Some t → row ∈ t →
     (0 < a_n_passengers row)%nat ∧
     v_survival_rate row
     = Some (Qc_of_Z (Z.of_nat (a_n_survivors row))
             / Qc_of_Z (Z.of_nat (a_n_passengers row)))%Qc).
Proof.
  assert (∀ (grouped : list DivAgg) (row : DivRow),
    row ∈ add_survival_rate grouped → (0 < a_n_passengers row)%nat →
    v_survival_rate row
    = Some (Qc_of_Z (Z.of_nat (a_n_survivors row))
            / Qc_of_Z (Z.of_nat (a_n_passengers row)))%Qc) as Hpos.
  { intros grouped row [_ Hrate]%elem_of_add_survival_rate ?.
    rewrite Hrate. unfold replace_zero_na. by rewrite decide_False by lia. }
  split.
  - intros grouped row Hrow. split; [by apply (Hpos grouped)|].
    apply elem_of_add_survival_rate in Hrow as [_ Hrate].
    intros H0. rewrite Hrate, H0. done.
  - intros D df t row Ht Hrow. unfold visualize_age_division in Ht.
    destruct (determine_age_division df) as [tagged|]; simplify_eq/=.
    assert (0 < a_n_passengers row)%nat as Hn.
    { apply elem_of_add_survival_rate in Hrow as [Hg _].
      by apply grouped_division_nonempty in Hg. }
    split; [done|]. by apply (Hpos (grouped_division tagged)).
Qed.

Lemma age_division_rate_spec_witness :
  v_survival_rate <$> add_survival_rate with_empty_group
  = [None; Some (Qc_of_Z 3 / Qc_of_Z 4)%Qc].
Proof.
  pose (empty := mkDivRow (mkDivAgg 1 false 0 0) None).
  pose (full := mkDivRow (mkDivAgg 1 true 4 3) (Some (Qc_of_Z 3 / Qc_of_Z 4)%Qc)).
  assert (add_survival_rate with_empty_group = [empty; full]) as Heq
    by (by vm_compute).
  destruct age_division_rate_spec as [Hrate _].
  destruct (Hrate with_empty_group empty) as (_ & H0);
    [rewrite Heq; apply list_elem_of_here|].
  destruct (Hrate with_empty_group full) as (Hq & _);
    [rewrite Heq; apply list_elem_of_further, list_elem_of_here|].
  rewrite Heq. cbn [fmap list_fmap].
  rewrite (proj1 (H0 eq_refl)), Hq by (simpl; lia). reflexivity.
Defined.

(** * Further properties of the program *)

(** ** Groups partition the rows that have a key *)

Section grouping_facts.
Context {A K : Type} `{EqDecision K}.
Implicit Types (key : A → option K) (keys : list K) (l : list A).

Lemma sum_list_with_ext (f g : K → nat) keys :
  (∀ k, f k = g k) → sum_list_with f keys = sum_list_with g keys.
Proof.
  intros Hfg. induction keys as [|k keys IH]; [done|].
  cbn [sum_list_with]. by rewrite Hfg, IH.
Qed.

Lemma sum_list_with_add (f g : K → nat) keys :
  sum_list_with (λ k, f k + g k)%nat keys
  = (sum_list_with f keys + sum_list_with g keys)%nat.
Proof. induction keys as [|k keys IH]; simpl; [done|]. rewrite IH. lia. Qed.

Lemma sum_indicator (o : option K) keys :
  NoDup keys →
  sum_list_with (λ k, if decide (o = Some k) then 1 else 0)%nat keys
  = match o with
    | Some k => if decide (k ∈ keys) then 1 else 0
    | None => 0
    end%nat.
Proof.
  induction 1 as [|k keys Hk _ IH]; cbn [sum_list_with].
  - destruct o as [k|]; [|done]. by destruct (decide (k ∈ [])) as [?%elem_of_nil|].
  - rewrite IH. destruct o as [k0|]; [|by destruct (decide (None = Some k))].
    repeat case_decide; simplify_eq;
      first [done | exfalso; rewrite ?elem_of_cons in *; intuition congruence].
Qed.

(** The sizes of the groups of distinct keys add up to the number of rows
    that have a key, when every key of a row is among them. *)
Lemma sum_group_sizes key keys l :
  NoDup keys → (∀ x k, x ∈ l → key x = Some k → k ∈ keys) →
  sum_list_with (λ k, length (filter (λ x, key x = Some k) l)) keys
  = length (filter (λ x, is_Some (key x)) l).
Proof.
  intros Hnd. induction l as [|x l IH]; intros Hkeys.
  - clear. induction keys as [|k keys IHk]; [done|].
    cbn [sum_list_with]. by rewrite IHk.
  - rewrite (sum_list_with_ext _
      (λ k, (if decide (key x = Some k) then 1 else 0)
            + length (filter (λ x, key x = Some k) l))%nat).
    2:{ intros k. rewrite filter_cons. by case_decide. }
    rewrite sum_list_with_add, sum_indicator, IH by eauto using list_elem_of_further.
    rewrite filter_cons. destruct (key x) as [k0|] eqn:Hx.
    + rewrite decide_True by (eapply Hkeys; [left|done]).
      by rewrite decide_True by (by eexists).
    + rewrite decide_False; [done|]. by intros [? ?].
Qed.
End grouping_facts.

Lemma sum_list_fmap {A} (f : A → nat) (l : list A) :
  sum_list (f <$> l) = sum_list_with f l.
Proof. induction l as [|x l IH]; csimpl; [done|]. by rewrite IH. Qed.

Lemma filter_comm {A} (P Q : A → Prop)
    `{∀ x, Decision (P x)} `{∀ x, Decision (Q x)} (l : list A) :
  filter P (filter Q l) = filter Q (filter P l).
Proof. rewrite !list_filter_filter. apply list_filter_iff. tauto. Qed.

Lemma StronglySorted_weaken {A} (R S : relation A) (l : list A) :
  (∀ x y, x ∈ l → y ∈ l → R x y → S x y) →
  StronglySorted R l → StronglySorted S l.
Proof.
  intros HRS Hl. induction Hl as [|x l Hl IH Hx]; constructor.
  - apply IH. intros y z ? ?. apply HRS; by right.
  - rewrite Forall_forall in Hx |- *. intros y Hy.
    apply HRS; [left|by right|by apply Hx].
Qed.

(** ** [survival_demographics]: totals and order *)

Lemma survival_demographics_Permutation {D} (df : DataFrame D) :
  survival_demographics df ≡ₚ
  (λ k, demo_row (k, agg_survived (filter (λ r, demo_key r = Some k) df)))
    <$> full_index df.
Proof.
  unfold survival_demographics. rewrite merge_sort_Permutation.
  unfold Pd.reindex. rewrite <-list_fmap_compose.
  erewrite list_fmap_ext; [reflexivity|]. intros i k _. simpl.
  by rewrite demo_cell_value.
Qed.

Lemma NoDup_full_index {D} (df : DataFrame D) : NoDup (full_index df).
Proof.
  apply NoDup_from_product; [apply NoDup_pclasses|apply NoDup_sexes|].
  by apply (bool_decide_unpack _).
Qed.

Lemma demo_key_in_full_index {D} (df : DataFrame D) (r : Passenger D) (k : DemoKey) :
  r ∈ df → demo_key r = Some k → k ∈ full_index df.
Proof.
  destruct k as [[c s] g]. intros Hr (Hc & Hs & Hg)%demo_key_Some; simpl in *.
  apply elem_of_from_product. split_and!.
  - apply elem_of_pclasses; eauto.
  - apply elem_of_sexes; eauto.
  - destruct g; by apply (bool_decide_unpack _).
Qed.

Lemma demo_key_is_Some {D} (r : Passenger D) :
  is_Some (demo_key r) ↔
  is_Some (Pclass r) ∧ is_Some (Sex r) ∧ is_Some (age_group r).
Proof.
  unfold demo_key.
  destruct (Pclass r), (Sex r), (age_group r); simpl; split; intros Hs;
    repeat match goal with
    | H : _ ∧ _ |- _ => destruct H
    | H : is_Some None |- _ => by destruct (is_Some_None H)
    end;
    split_and?; by eexists.
Qed.

(** X1: the passenger counts of the table add up to the number of source
    rows that have a class, a sex and an age group, and the survivor counts
    to the number of survivors among them: the completed table counts each
    such passenger once and no other. *)
Theorem survival_demographics_conserves {D} (df : DataFrame D) :
  let kept :=
    filter (λ r, is_Some (Pclass r) ∧ is_Some (Sex r) ∧ is_Some (age_group r)) df in
  sum_list (n_passengers <$> survival_demographics df) = length kept ∧
  sum_list (n_survivors <$> survival_demographics df)
  = length (filter (λ r, Survived r = true) kept).
Proof.
  intros kept.
  assert (kept = filter (λ r, is_Some (demo_key r)) df) as ->.
  { apply list_filter_iff. intros r. by rewrite demo_key_is_Some. }
  rewrite !survival_demographics_Permutation, <-!list_fmap_compose.
  rewrite !sum_list_fmap. split.
  - rewrite <-(sum_group_sizes demo_key (full_index df));
      [|apply NoDup_full_index|apply demo_key_in_full_index].
    apply sum_list_with_ext. by intros [[c s] g].
  - rewrite filter_comm.
    rewrite <-(sum_group_sizes demo_key (full_index df));
      [|apply NoDup_full_index|].
    2:{ intros r k [_ Hr]%list_elem_of_filter. by apply demo_key_in_full_index. }
    apply sum_list_with_ext. intros [[c s] g]. simpl. by rewrite filter_comm.
Qed.

Lemma age_group_le_total b : Total (age_group_le b).
Proof.
  intros g1 g2. unfold age_group_le. destruct b; [lia|apply (total String.le)].
Qed.

Lemma age_group_le_trans b : Transitive (age_group_le b).
Proof.
  intros g1 g2 g3. unfold age_group_le. destruct b; [lia|apply transitivity].
Qed.

Lemma demo_le_total b : Total (demo_le b).
Proof.
  intros r1 r2. unfold demo_le.
  destruct (Z.lt_trichotomy (d_Pclass r1) (d_Pclass r2)) as [?|[Hc|?]];
    [by left; left| |by right; left].
  destruct (decide (d_Sex r1 = d_Sex r2)) as [Hs|Hs].
  - destruct (age_group_le_total b (d_age_group r1) (d_age_group r2));
      [left|right]; right; split; auto.
  - destruct (total String.le (d_Sex r1) (d_Sex r2));
      [left|right]; right; split; auto.
Qed.

Lemma demo_le_trans b : Transitive (demo_le b).
Proof.
  intros r1 r2 r3. unfold demo_le.
  intros [?|[Hc12 H12]] [?|[Hc23 H23]]; [left; lia..|].
  right. split; [congruence|].
  destruct H12 as [[Hne12 Hle12]|[He12 Hl12]], H23 as [[Hne23 Hle23]|[He23 Hl23]].
  - left. split; [|by etrans]. intros Heq. rewrite <-Heq in Hle23.
    by apply Hne12, (anti_symm String.le).
  - left. rewrite <-He23. done.
  - left. rewrite He12. done.
  - right. split; [congruence|]. by apply (age_group_le_trans b _ (d_age_group r2)).
Qed.

(** X2: the rows of the table come in the order of class, and within a
    class in the order of sex. *)
Theorem survival_demographics_sorted {D} (df : DataFrame D) :
  StronglySorted class_sex_le (survival_demographics df).
Proof.
  unfold survival_demographics.
  set (unchanged := bool_decide _).
  pose proof (demo_le_total unchanged). pose proof (demo_le_trans unchanged).
  apply (StronglySorted_weaken (demo_le unchanged)).
  - intros r1 r2 _ _. unfold demo_le, class_sex_le.
    intros [?|[Hc [[_ ?]|[-> _]]]]; [by left|by right..].
  - by apply StronglySorted_merge_sort.
Qed.

Lemma StronglySorted_strict {A B} (f : A → B) (R S : relation A) (l : list A) :
  (∀ x y, R x y → f x ≠ f y → S x y) →
  NoDup (f <$> l) → StronglySorted R l → StronglySorted S l.
Proof.
  intros HRS Hnd Hl. induction Hl as [|x l Hl IH Hx]; constructor.
  - apply IH. by apply NoDup_cons in Hnd as [_ ?].
  - rewrite Forall_forall in Hx |- *. intros y Hy.
    apply HRS; [by apply Hx|]. intros Heq.
    apply NoDup_cons in Hnd as [Hnotin _]. apply Hnotin.
    rewrite Heq. by apply list_elem_of_fmap_2.
Qed.

(** ** [family_groups]: one row per observed pair *)

Lemma fam_key_le_total : Total fam_key_le.
Proof.
  intros [c1 n1] [c2 n2]. unfold fam_key_le; simpl.
  destruct (Z.lt_trichotomy c1 c2) as [?|[->|?]]; [by left; left| |by right; left].
  destruct (Z.le_ge_cases n1 n2); [left|right]; right; done.
Qed.

Lemma fam_key_le_trans : Transitive fam_key_le.
Proof.
  intros [c1 n1] [c2 n2] [c3 n3]. unfold fam_key_le; simpl.
  intros [?|[-> ?]] [?|[-> ?]]; [left; lia..|]. right. split; [done|lia].
Qed.

Lemma family_groups_Permutation {D} `{Arith D} (df : DataFrame D) :
  family_groups df ≡ₚ fam_row df <$> Pd.unique (omap (fam_key df) df).
Proof.
  unfold family_groups. by rewrite !merge_sort_Permutation, dropna_fmap.
Qed.

Lemma family_groups_keys {D} `{Arith D} (df : DataFrame D) :
  f_key <$> family_groups df ≡ₚ Pd.unique (omap (fam_key df) df).
Proof.
  rewrite family_groups_Permutation, <-list_fmap_compose.
  erewrite list_fmap_ext; [by rewrite list_fmap_id|].
  intros i k _. apply f_key_fam_row.
Qed.

Lemma fam_group_alt {D} (df : DataFrame D) (k : FamKey) :
  fam_group df k
  = filter (λ r, Pclass r = Some k.1 ∧ family_size df r = k.2) df.
Proof. apply list_filter_iff. intros r. apply fam_key_Some. Qed.

(** X3: the table of [family_groups] has one row for each pair of a class
    and a family size that some passenger has, and no other row; the count
    of a row is the number of passengers of that class and family size,
    which is at least 1. *)
Theorem family_groups_rows {D} `{Arith D} (df : DataFrame D) :
  NoDup (f_key <$> family_groups df) ∧
  (∀ c n, (c, n) ∈ f_key <$> family_groups df ↔
     ∃ r, r ∈ df ∧ Pclass r = Some c ∧ family_size df r = n) ∧
  (∀ row, row ∈ family_groups df →
     f_n_passengers row
     = length (filter (λ r, Pclass r = Some (f_Pclass row) ∧
                            family_size df r = f_family_size row) df) ∧
     (1 ≤ f_n_passengers row)%nat).
Proof.
  split_and!.
  - rewrite family_groups_keys. apply NoDup_unique.
  - intros c n. rewrite family_groups_keys, elem_of_unique, list_elem_of_omap.
    split; intros (r & ? & Hr); exists r.
    + apply fam_key_Some in Hr as [? ?]. done.
    + split; [done|]. apply fam_key_Some. done.
  - intros row (k & (r & Hr & Hk) & ->)%elem_of_family_groups.
    cbn [fam_row f_n_passengers f_Pclass f_family_size].
    rewrite <-fam_group_alt. split; [done|].
    assert (r ∈ fam_group df k) as Hin by (by apply list_elem_of_filter).
    destruct (fam_group df k); [by apply elem_of_nil in Hin|simpl; lia].
Qed.

(** X4: the counts of the table add up to the number of source rows that
    have a class: every such passenger is in exactly one group. *)
Theorem family_groups_conserves {D} `{Arith D} (df : DataFrame D) :
  sum_list (f_n_passengers <$> family_groups df)
  = length (filter (λ r, is_Some (Pclass r)) df).
Proof.
  rewrite family_groups_Permutation, <-list_fmap_compose, sum_list_fmap.
  rewrite (sum_list_with_ext _
    (λ k, length (filter (λ r, fam_key df r = Some k) df))) by done.
  rewrite (sum_group_sizes (fam_key df)); [|apply NoDup_unique|].
  - f_equal. apply list_filter_iff. intros r. unfold fam_key.
    destruct (Pclass r) as [c|]; simpl.
    + split; intros _; [by exists c|by exists (c, family_size df r)].
    + split; intros []%is_Some_None.
  - intros r k Hr Hk. apply elem_of_unique, list_elem_of_omap. by exists r.
Qed.

(** X5: the rows of the table are in strictly increasing order of class and,
    within a class, of family size. *)
Theorem family_groups_sorted {D} `{Arith D} (df : DataFrame D) :
  StronglySorted (λ r1 r2, fam_key_lt (f_key r1) (f_key r2)) (family_groups df).
Proof.
  apply (StronglySorted_strict f_key (λ r1 r2, fam_key_le (f_key r1) (f_key r2))).
  - intros r1 r2. destruct (f_key r1) as [c1 n1], (f_key r2) as [c2 n2].
    unfold fam_key_le, fam_key_lt; simpl. intros [?|[-> ?]] Hne; [by left|].
    right. split; [done|]. apply Z.le_neq. split; [done|]. congruence.
  - rewrite family_groups_keys. apply NoDup_unique.
  - unfold family_groups. apply StronglySorted_merge_sort.
    + intros r1 r2 r3. apply fam_key_le_trans.
    + intros r1 r2. apply fam_key_le_total.
Qed.

(** ** [last_names]: the counts and their order *)

Lemma NoDup_count_add (k : string) (acc : list (string * nat)) :
  NoDup acc.*1 → NoDup (count_add k acc).*1.
Proof.
  induction acc as [|[k' n] acc IH]; intros Hnd.
  - apply NoDup_singleton.
  - cbn [count_add]. apply NoDup_cons in Hnd as [Hk' Hnd].
    case_decide; rewrite fmap_cons; apply NoDup_cons; [done|].
    split; [|by apply IH]. simpl in *. rewrite keys_count_add.
    intros [?|?]; [congruence|done].
Qed.

Lemma loc_count_add (k k0 : string) (acc : list (string * nat)) :
  default 0%nat (Pd.loc k0 (count_add k acc))
  = (default 0%nat (Pd.loc k0 acc) + if decide (k0 = k) then 1 else 0)%nat.
Proof.
  induction acc as [|[k' n] acc IH].
  - cbn [count_add Pd.loc]. case_decide; simpl; lia.
  - cbn [count_add]. destruct (decide (k = k')) as [->|Hne]; cbn [Pd.loc].
    + repeat case_decide; simplify_eq; simpl; lia.
    + destruct (decide (k0 = k')) as [->|]; [|done].
      rewrite decide_False by done. simpl. lia.
Qed.

Lemma loc_elem_of {V} (k : string) (v : V) (acc : list (string * V)) :
  NoDup acc.*1 → (k, v) ∈ acc → Pd.loc k acc = Some v.
Proof.
  induction acc as [|[k' v'] acc IH]; intros Hnd Hin; [by apply elem_of_nil in Hin|].
  apply NoDup_cons in Hnd as [Hk' Hnd]. cbn [Pd.loc].
  apply elem_of_cons in Hin as [[= -> ->]|Hin]; [by rewrite decide_True|].
  rewrite decide_False; [by apply IH|]. intros ->. apply Hk'.
  apply list_elem_of_fmap. by exists (k', v).
Qed.

Lemma counts_foldl_count_add (l : list string) (acc : list (string * nat)) (k0 : string) :
  default 0%nat (Pd.loc k0 (foldl (λ acc k, count_add k acc) acc l))
  = (default 0%nat (Pd.loc k0 acc) + length (filter (λ k, k = k0) l))%nat.
Proof.
  revert acc. induction l as [|k l IH]; intros acc; cbn [foldl].
  - simpl. lia.
  - rewrite IH, loc_count_add, filter_cons.
    repeat case_decide; simplify_eq; cbn [length]; lia.
Qed.

Lemma NoDup_foldl_count_add (l : list string) (acc : list (string * nat)) :
  NoDup acc.*1 → NoDup (foldl (λ acc k, count_add k acc) acc l).*1.
Proof.
  revert acc. induction l as [|k l IH]; intros acc Hnd; [done|].
  cbn [foldl]. by apply IH, NoDup_count_add.
Qed.

Lemma length_filter_omap {A B} `{EqDecision B} (f : A → option B) (y : B) (l : list A) :
  length (filter (λ z, z = y) (omap f l)) = length (filter (λ x, f x = Some y) l).
Proof.
  induction l as [|x l IH]; [done|].
  rewrite (filter_cons (λ x, f x = Some y)). cbn [omap list_omap].
  destruct (f x) as [z|].
  - rewrite filter_cons. repeat case_decide; simplify_eq; cbn [length]; congruence.
  - by rewrite decide_False.
Qed.

Lemma last_names_entry {D} (df : DataFrame D) (k : string) (n : nat) :
  (k, n) ∈ last_names df → n = occurrences df k.
Proof.
  intros Hloc. rewrite last_names_Permutation in Hloc.
  apply loc_elem_of in Hloc; [|by apply NoDup_foldl_count_add, NoDup_nil_2].
  pose proof (counts_foldl_count_add (omap (last_name ∘ Name) df) [] k) as Hc.
  rewrite Hloc in Hc. simpl in Hc. rewrite Hc. apply length_filter_omap.
Qed.

(** X6: in the table of [last_names] no name occurs twice, and the count
    beside a name is the number of source rows with that last name, which
    is at least 1. *)
Theorem last_names_counts {D} (df : DataFrame D) :
  NoDup (last_names df).*1 ∧
  ∀ k n, (k, n) ∈ last_names df → n = occurrences df k ∧ (1 ≤ n)%nat.
Proof.
  assert (NoDup (last_names df).*1) as Hnd.
  { rewrite last_names_Permutation. apply NoDup_foldl_count_add, NoDup_nil_2. }
  split; [done|]. intros k n Hin.
  pose proof (last_names_entry df k n Hin) as ->.
  split; [done|].
  assert (k ∈ (last_names df).*1) as (r & Hr & Hk)%last_names_keys.
  { apply list_elem_of_fmap. by exists (k, occurrences df k). }
  assert (r ∈ filter (λ r, last_name (Name r) = Some k) df) as Hf
    by (by apply list_elem_of_filter).
  unfold occurrences. destruct (filter _ df); [by apply elem_of_nil in Hf|simpl; lia].
Qed.

(** X7: the table of [last_names] is in descending order of count: no entry
    has a greater count than an entry before it. *)
Theorem last_names_sorted {D} (df : DataFrame D) :
  StronglySorted count_ge (last_names df).
Proof.
  unfold last_names. apply count_ge_sorted.
Qed.

(** ** [last_names]: what a last name never contains *)

Lemma chars_app (s t : string) : chars (s +:+ t) = chars s ++ chars t.
Proof.
  induction s as [|c s IH]; [done|]. rewrite app_String. simpl. by rewrite IH.
Qed.

Lemma partition_at_Some (sep : ascii) (s a b : string) :
  partition_at sep s = Some (a, b) →
  (sep ∉ chars a) ∧ s = a +:+ String sep b.
Proof.
  revert a. induction s as [|c s IH]; intros a; [done|]. simpl.
  case_decide as Hc.
  - intros [= <- <-]. subst c. split; [apply not_elem_of_nil|done].
  - destruct (partition_at sep s) as [[a' b']|]; [|done].
    intros [= <- <-]. destruct (IH a' eq_refl) as [Ha ->].
    split; [|by rewrite app_String]. simpl. apply not_elem_of_cons. auto.
Qed.

Lemma lstrip_fixed (s : string) :
  (∀ c, head (chars s) = Some c → is_space c = false) → lstrip s = s.
Proof.
  destruct s as [|c s]; [done|]. intros Hhd. simpl.
  by rewrite (Hhd c eq_refl).
Qed.

Lemma rstrip_fixed (s : string) :
  (∀ c, last (chars s) = Some c → is_space c = false) → rstrip s = s.
Proof.
  induction s as [|c s IH]; [done|]. intros Hlast. simpl.
  destruct s as [|d s].
  - simpl. by rewrite (Hlast c eq_refl).
  - rewrite IH; [done|]. intros c' Hc'. apply Hlast.
    cbn [chars] in *. by rewrite last_cons_cons.
Qed.

Lemma strip_fixed (s : string) : trimmed s → strip s = s.
Proof.
  intros Hs. unfold strip. rewrite lstrip_fixed by (intros c ?; apply Hs; by left).
  apply rstrip_fixed. intros c ?. apply Hs. by right.
Qed.

Lemma chars_strip (s : string) (c : ascii) : c ∈ chars (strip s) → c ∈ chars s.
Proof.
  destruct (strip_spec s) as (l & r & Hs & _). intros Hc.
  rewrite Hs, !chars_app, !elem_of_app. auto.
Qed.

(** X8: a last name that [last_names] counts contains no comma and has no
    whitespace at either end, and extracting the last name of a last name
    gives it back. *)
Theorem last_name_clean (name k : string) :
  last_name name = Some k →
  (","%char ∉ chars k) ∧ trimmed k ∧ last_name k = Some k.
Proof.
  intros Hk.
  assert (∃ pre, k = strip pre ∧ ","%char ∉ chars pre) as (pre & -> & Hpre).
  { unfold last_name, split1 in Hk.
    destruct (partition_at "," name) as [[a b]|] eqn:Hp; simplify_eq/=.
    - apply partition_at_Some in Hp as [? _]. eauto.
    - exists name. split; [done|]. clear -Hp.
      induction name as [|c s IH]; [apply not_elem_of_nil|]. simpl in *.
      case_decide; [done|]. apply not_elem_of_cons. split; [done|].
      apply IH. by destruct (partition_at "," s). }
  assert (trimmed (strip pre)) as Htr.
  { by destruct (strip_spec pre) as (_ & _ & _ & _ & _ & ?). }
  assert (","%char ∉ chars (strip pre)) as Hno.
  { intros ?%chars_strip. done. }
  split_and!; [done..|].
  unfold last_name, split1. rewrite partition_at_none by done. simpl.
  by rewrite strip_fixed.
Qed.

Lemma last_name_clean_witness :
  (","%char ∉ chars "van Melkebeke") ∧
  last_name "van Melkebeke" = Some "van Melkebeke".
Proof.
  destruct (last_name_clean " van Melkebeke , Mr. Philemon, jr" "van Melkebeke")
    as (Hno & _ & Hfix); [reflexivity|]. by split.
Defined.

(** ** The median *)




Section median_facts.
Local Open Scope Qc_scope.
Implicit Types (x y m : Qc) (s xs : list Qc).







End median_facts.

(** ** [determine_age_division]: failure, medians and the flagged share *)

Lemma older_passenger_None {D} (df : DataFrame D) (r : Passenger D) :
  r ∈ df →
  older_passenger (class_medians df) r = None ↔
  is_Some (Age r) ∧ Pclass r = None.
Proof.
  intros Hr. unfold older_passenger. destruct (Age r) as [a|].
  - destruct (Pclass r) as [c|] eqn:Hc; simpl.
    + rewrite loc_class_medians, decide_True by (apply elem_of_pclasses; eauto).
      simpl. split; [done|]. by intros [_ ?].
    + split; [by split; [eexists|]|done].
  - split; [done|]. by intros [[]%is_Some_None _].
Qed.

Lemma determine_age_division_None {D} (df : DataFrame D) :
  determine_age_division df = None ↔
  ∃ r, r ∈ df ∧ is_Some (Age r) ∧ Pclass r = None.
Proof.
  split.
  - intros Hnone.
    destruct (decide (Exists (λ r, is_Some (Age r) ∧ Pclass r = None) df))
      as [(r & ? & ?)%Exists_exists|Hall]; [by exists r|exfalso].
    apply not_Exists_Forall in Hall; [|apply _]. rewrite Forall_forall in Hall.
    assert (is_Some (determine_age_division df)) as [t Ht]; [|congruence].
    apply mapM_is_Some, Forall_forall. intros r Hr. simpl.
    destruct (older_passenger_total df r Hr) as [b ->]; [|by eexists].
    intros Hage. destruct (Pclass r) eqn:Hc; [by eexists|].
    by destruct (Hall r Hr).
  - intros (r & Hr & Hage). apply eq_None_not_Some.
    intros Hsome%mapM_is_Some. rewrite Forall_forall in Hsome.
    destruct (Hsome r Hr) as [e He]. simpl in He.
    apply (older_passenger_None df r Hr) in Hage. by rewrite Hage in He.
Qed.

(** X9: [determine_age_division] fails exactly when some row has an age and
    no class (the lookup of that row's class median raises), and the
    summary of [visualize_age_division] fails exactly then. *)
Theorem age_division_raises {D} (df : DataFrame D) :
  (determine_age_division df = None ↔
     ∃ r, r ∈ df ∧ is_Some (Age r) ∧ Pclass r = None) ∧
  (visualize_age_division df = None ↔ determine_age_division df = None).
Proof.
  split; [apply determine_age_division_None|].
  unfold visualize_age_division. by destruct (determine_age_division df).
Qed.








(** ** [visualize_age_division]: the summary table *)

Lemma div_key_le_total : Total div_key_le.
Proof.
  intros [c1 b1] [c2 b2]. unfold div_key_le; simpl.
  destruct (Z.lt_trichotomy c1 c2) as [?|[->|?]];
    [by left; left| |by right; left].
  destruct b2; [left|right]; right; by split.
Qed.

Lemma div_key_le_trans : Transitive div_key_le.
Proof.
  intros [c1 b1] [c2 b2] [c3 b3]. unfold div_key_le; simpl.
  intros [?|[-> H12]] [?|[-> H23]]; [left; lia..|].
  right. split; [done|]. auto.
Qed.

Lemma grouped_division_Permutation {D} (t : list (Passenger D * bool)) :
  grouped_division t
  ≡ₚ (λ k : DivKey,
        let rows := filter (λ e, div_key e = Some k) t in
        mkDivAgg k.1 k.2 (length rows)
          (length (filter (λ e, Survived e.1 = true) rows)))
       <$> Pd.unique (omap div_key t).
Proof.
  unfold grouped_division. by rewrite merge_sort_Permutation, dropna_fmap.
Qed.

Lemma length_filter_fst {A B} (P : A → Prop) `{∀ x, Decision (P x)}
    (t : list (A * B)) :
  length (filter (λ e, P e.1) t) = length (filter P t.*1).
Proof.
  induction t as [|e t IH]; [done|].
  rewrite fmap_cons, !filter_cons. simpl.
  case_decide; cbn [length]; by rewrite IH.
Qed.

Lemma div_key_is_Some {D} (e : Passenger D * bool) :
  is_Some (div_key e) ↔ is_Some (Pclass e.1).
Proof.
  unfold div_key. destruct (Pclass e.1) as [c|]; simpl.
  - split; intros _; by eexists.
  - split; intros []%is_Some_None.
Qed.

(** X12: when [visualize_age_division] produces its summary, the rows are
    in strictly increasing order of class and, within a class, the
    unflagged group before the flagged one (so no pair occurs twice); the
    passenger counts add up to the number of source rows that have a
    class, and the survivor counts to the number of survivors among
    them. *)
Theorem age_division_groups {D} (df : DataFrame D) (rows : list DivRow) :
  visualize_age_division df = Some rows →
  StronglySorted (λ r1 r2, div_key_lt (v_key r1) (v_key r2)) rows ∧
  sum_list ((λ row : DivRow, a_n_passengers row) <$> rows)
  = length (filter (λ r, is_Some (Pclass r)) df) ∧
  sum_list ((λ row : DivRow, a_n_survivors row) <$> rows)
  = length (filter (λ r, is_Some (Pclass r) ∧ Survived r = true) df).
Proof.
  unfold visualize_age_division. intros Hrows.
  destruct (determine_age_division df) as [t|] eqn:Ht; simplify_eq/=.
  apply mapM_tagged in Ht as [<- _].
  assert (v_key <$> add_survival_rate (grouped_division t)
          ≡ₚ Pd.unique (omap div_key t)) as Hkeys.
  { unfold add_survival_rate.
    rewrite grouped_division_Permutation, <-!list_fmap_compose.
    erewrite list_fmap_ext; [by rewrite list_fmap_id|]. by intros i [c b] _. }
  split_and!.
  - apply (StronglySorted_strict v_key
             (λ r1 r2, div_key_le (v_key r1) (v_key r2))).
    + intros r1 r2. destruct (v_key r1) as [c1 b1], (v_key r2) as [c2 b2].
      unfold div_key_le, div_key_lt; simpl. intros [?|[-> Hb]] Hne; [by left|].
      right. split; [done|]. destruct b1, b2; try done.
      by specialize (Hb eq_refl).
    + rewrite Hkeys. apply NoDup_unique.
    + unfold add_survival_rate, grouped_division.
      rewrite <-list_fmap_compose.
      apply (StronglySorted_fmap _ div_key_le).
      * by intros [c1 b1] [c2 b2].
      * apply StronglySorted_merge_sort.
        -- apply div_key_le_trans.
        -- apply div_key_le_total.
  - unfold add_survival_rate.
    rewrite grouped_division_Permutation, <-!list_fmap_compose, sum_list_fmap.
    rewrite (sum_list_with_ext _
      (λ k, length (filter (λ e, div_key e = Some k) t))) by done.
    rewrite (sum_group_sizes div_key); [|apply NoDup_unique|].
    + rewrite <-length_filter_fst. f_equal. apply list_filter_iff.
      intros e. apply div_key_is_Some.
    + intros e k He Hk. apply elem_of_unique, list_elem_of_omap. by exists e.
  - unfold add_survival_rate.
    rewrite grouped_division_Permutation, <-!list_fmap_compose, sum_list_fmap.
    rewrite (sum_list_with_ext _
      (λ k, length (filter (λ e, div_key e = Some k)
                      (filter (λ e, Survived e.1 = true) t)))).
    2:{ intros k. simpl. by rewrite filter_comm. }
    rewrite (sum_group_sizes div_key); [|apply NoDup_unique|].
    + rewrite <-(length_filter_fst (λ r, is_Some (Pclass r) ∧ Survived r = true)).
      rewrite list_filter_filter. f_equal. apply list_filter_iff.
      intros e. rewrite div_key_is_Some. tauto.
    + intros e k [_ He]%list_elem_of_filter Hk.
      apply elem_of_unique, list_elem_of_omap. by exists e.
Qed.

Lemma age_division_groups_witness :
  ∃ rows, visualize_age_division third_class = Some rows ∧
    sum_list ((λ row : DivRow, a_n_passengers row) <$> rows) = 4%nat.
Proof.
  destruct (visualize_age_division third_class) as [rows|] eqn:Hrows;
    [|by vm_compute in Hrows].
  exists rows. split; [done|].
  by destruct (age_division_groups third_class rows Hrows) as (_ & -> & _).
Defined.

Lemma length_filter_tagged {A B} `{EqDecision B} (f : A → option B)
    (Q : A → Prop) `{∀ x, Decision (Q x)} (b : B) (l : list A) (t : list (A * B)) :
  mapM (λ x, y ← f x; Some (x, y)) l = Some t →
  length (filter (λ e, Q e.1 ∧ e.2 = b) t)
  = length (filter (λ x, Q x ∧ f x = Some b) l).
Proof.
  intros Ht%mapM_Some. induction Ht as [|x [x' y] l t Hx _ IH]; [done|].
  destruct (f x) as [y'|] eqn:Hfx; [|done]. injection Hx as <- <-.
  rewrite !filter_cons. simpl. rewrite Hfx.
  destruct (decide (Q x ∧ y' = b)) as [[? ->]|Hn].
  - rewrite decide_True by done. cbn [length]. by rewrite IH.
  - rewrite decide_False; [done|]. intros [? [= ->]]. by apply Hn.
Qed.

(** X13: in every row of the summary of [visualize_age_division] the
    passenger count is the number of source rows of the row's class that
    were given the row's flag, the survivors are at most the passengers,
    and the rate is a number between 0 and 1. *)
Theorem age_division_rate_bounds {D} (df : DataFrame D)
    (rows : list DivRow) (row : DivRow) :
  visualize_age_division df = Some rows → row ∈ rows →
  a_n_passengers row
  = length (filter (λ r, Pclass r = Some (a_Pclass row) ∧
                         older_passenger (class_medians df) r
                         = Some (a_older_passenger row)) df) ∧
  (a_n_survivors row ≤ a_n_passengers row)%nat ∧
  ∃ q, v_survival_rate row = Some q ∧ (0 ≤ q ≤ 1)%Qc.
Proof.
  unfold visualize_age_division. intros Hrows Hrow.
  destruct (determine_age_division df) as [t|] eqn:Ht; simplify_eq/=.
  apply elem_of_add_survival_rate in Hrow as [Hg Hrate].
  pose proof (grouped_division_nonempty t _ Hg) as Hpos.
  unfold grouped_division in Hg. apply list_elem_of_fmap in Hg as (k & Hk & _).
  assert (a_n_survivors row ≤ a_n_passengers row)%nat as Hle.
  { rewrite Hk. simpl. apply length_filter. }
  split_and!; [|done|].
  - rewrite <-(length_filter_tagged _ (λ r, Pclass r = Some (a_Pclass row)) _ df t Ht).
    rewrite Hk. simpl. f_equal. apply list_filter_iff.
    intros e. apply div_key_Some.
  - rewrite Hrate. unfold replace_zero_na. rewrite decide_False by lia.
    eexists. split; [done|]. apply Qc_ratio_bounds; [done|lia].
Qed.

Lemma age_division_rate_bounds_witness :
  ∃ rows, visualize_age_division third_class = Some rows ∧
    ∀ row, row ∈ rows → ∃ q, v_survival_rate row = Some q ∧ (0 ≤ q ≤ 1)%Qc.
Proof.
  destruct (visualize_age_division third_class) as [rows|] eqn:Hrows;
    [|by vm_compute in Hrows].
  exists rows. split; [done|]. intros row Hrow.
  by destruct (age_division_rate_bounds third_class rows row Hrows Hrow)
    as (_ & _ & ?).
Defined.

(** ** [app.py]: the brief findings *)

Lemma foldl_max_spec (n : Z) (ns : list Z) :
  foldl Z.max n ns ∈ n :: ns ∧ ∀ x, x ∈ n :: ns → x ≤ foldl Z.max n ns.
Proof.
  revert n. induction ns as [|a ns IH]; intros n; cbn [foldl].
  - split; [left|]. intros x ->%list_elem_of_singleton. done.
  - destruct (IH (Z.max n a)) as [Hin Hmax]. split.
    + apply elem_of_cons in Hin as [Heq|Hin]; [|by do 2 right].
      rewrite Heq. destruct (Z.max_spec n a) as [[_ ->]|[_ ->]];
        [right; left|left].
    + intros x Hx.
      apply elem_of_cons in Hx as [->|Hx]; [|apply elem_of_cons in Hx as [->|Hx]].
      * etrans; [|apply (Hmax (Z.max n a)); left]. lia.
      * etrans; [|apply (Hmax (Z.max n a)); left]. lia.
      * apply Hmax. by right.
Qed.

Lemma max_family_size_None {D} `{Arith D} (df : DataFrame D) :
  max_family_size (family_groups df) = None ↔ ∀ r, r ∈ df → Pclass r = None.
Proof.
  unfold max_family_size. split.
  - intros Hnone r Hr. destruct (Pclass r) as [c|] eqn:Hc; [|done].
    assert (fam_row df (c, family_size df r) ∈ family_groups df) as Hin.
    { apply elem_of_family_groups. exists (c, family_size df r).
      split; [|done]. exists r. split; [done|]. by apply fam_key_Some. }
    destruct (family_groups df); [by apply elem_of_nil in Hin|done].
  - intros Hall. destruct (family_groups df) as [|row tbl] eqn:Htbl; [done|].
    assert (row ∈ family_groups df) as Hin by (rewrite Htbl; left).
    apply elem_of_family_groups in Hin as (k & (r & Hr & [Hk _]%fam_key_Some) & _).
    rewrite (Hall r Hr) in Hk. done.
Qed.

Lemma max_family_size_Some {D} `{Arith D} (df : DataFrame D) (m : Z) :
  max_family_size (family_groups df) = Some m →
  (∃ r, r ∈ df ∧ is_Some (Pclass r) ∧ family_size df r = m) ∧
  ∀ r, r ∈ df → is_Some (Pclass r) → family_size df r ≤ m.
Proof.
  unfold max_family_size. intros Hm.
  assert (m ∈ f_family_size <$> family_groups df ∧
          ∀ x, x ∈ f_family_size <$> family_groups df → x ≤ m) as [Hin Hmax].
  { destruct (f_family_size <$> family_groups df) as [|n ns];
      simplify_eq. apply foldl_max_spec. }
  split.
  - apply list_elem_of_fmap in Hin as (row & -> & Hrow).
    apply elem_of_family_groups in Hrow as (k & (r & Hr & Hk) & ->).
    apply fam_key_Some in Hk as [Hc Hn]. exists r.
    split_and!; [done|by eexists|]. by destruct k.
  - intros r Hr [c Hc]. apply Hmax, list_elem_of_fmap.
    exists (fam_row df (c, family_size df r)). split; [done|].
    apply elem_of_family_groups. exists (c, family_size df r).
    split; [|done]. exists r. split; [done|]. by apply fam_key_Some.
Qed.

Lemma last_names_nil {D} (df : DataFrame D) : last_names df = [] ↔ df = [].
Proof.
  split; [|by intros ->].
  intros Hnil. destruct df as [|r df]; [done|].
  destruct (last_name_is_Some (Name r)) as [k Hk].
  assert (k ∈ (last_names (r :: df)).*1) as Hin
    by (apply last_names_keys; exists r; split; [left|done]).
  rewrite Hnil in Hin. by apply elem_of_nil in Hin.
Qed.

(** X14: the findings block of the page writes nothing exactly when the
    table has no row, and raises exactly when the table has rows but none
    of them has a class (the family table is then empty and its largest
    family size is missing). *)
Theorem brief_findings_outcome {D} `{Arith D} (df : DataFrame D) :
  (brief_findings df = Skipped ↔ df = []) ∧
  (brief_findings df = Raised ↔ df ≠ [] ∧ ∀ r, r ∈ df → Pclass r = None).
Proof.
  unfold brief_findings. rewrite <-max_family_size_None, <-last_names_nil.
  destruct (last_names df) as [|[k n] rest];
    [|destruct (max_family_size (family_groups df))];
    intuition congruence.
Qed.

(** X15: when the findings block writes its sentence, the name it gives is
    a last name of the table that occurs as often as the count says, no
    last name occurs more often, and the family size it gives is the
    largest one among the rows that have a class. *)
Theorem brief_findings_shown {D} `{Arith D} (df : DataFrame D)
    (k : string) (n : nat) (m : Z) :
  brief_findings df = Shown k n m →
  n = occurrences df k ∧ (1 ≤ n)%nat ∧
  (∀ k', occurrences df k' ≤ n)%nat ∧
  (∃ r, r ∈ df ∧ is_Some (Pclass r) ∧ family_size df r = m) ∧
  (∀ r, r ∈ df → is_Some (Pclass r) → family_size df r ≤ m).
Proof.
  unfold brief_findings. intros Hshown.
  destruct (last_names df) as [|[k0 n0] rest] eqn:Hln; [done|].
  destruct (max_family_size (family_groups df)) as [m0|] eqn:Hmax; [|done].
  injection Hshown as -> -> ->.
  assert (∀ k' n', (k', n') ∈ last_names df → n' = occurrences df k') as Hentry
    by apply last_names_entry.
  assert (n = occurrences df k) as Hn by (apply Hentry; rewrite Hln; left).
  assert (StronglySorted count_ge (last_names df)) as Hsorted.
  { unfold last_names. apply count_ge_sorted. }
  rewrite Hln in Hsorted. apply StronglySorted_inv in Hsorted as [_ Hhead].
  rewrite Forall_forall in Hhead.
  assert (∀ k', occurrences df k' ≤ n)%nat as Hmost.
  { intros k'. destruct (decide (occurrences df k' = 0%nat)) as [->|Hpos]; [lia|].
    assert (k' ∈ (last_names df).*1) as Hk'.
    { apply last_names_keys. unfold occurrences in Hpos.
      destruct (filter (λ r, last_name (Name r) = Some k') df) as [|r l] eqn:Hf;
        [done|].
      assert (r ∈ filter (λ r, last_name (Name r) = Some k') df) as Hr
        by (rewrite Hf; left).
      apply list_elem_of_filter in Hr as [? ?]. by exists r. }
    apply list_elem_of_fmap in Hk' as ([k1 n'] & -> & Hin). simpl.
    rewrite <-(Hentry _ _ Hin). rewrite Hln in Hin.
    apply elem_of_cons in Hin as [[= _ ->]|Hin]; [done|].
    apply (Hhead _ Hin). }
  split_and!; [done| |done|..].
  - assert (k ∈ (last_names df).*1) as (r & Hr & Hk)%last_names_keys.
    { rewrite Hln. left. }
    assert (r ∈ filter (λ r, last_name (Name r) = Some k) df) as Hf
      by (by apply list_elem_of_filter).
    rewrite Hn. unfold occurrences.
    destruct (filter _ df); [by apply elem_of_nil in Hf|simpl; lia].
  - by apply max_family_size_Some.
  - by apply max_family_size_Some.
Qed.

Lemma brief_findings_shown_witness :
  ∃ k n m, brief_findings sample = Shown k n m ∧
    (∀ k', occurrences sample k' ≤ n)%nat.
Proof.
  destruct (brief_findings sample) as [| |k n m] eqn:Hshown;
    [by vm_compute in Hshown..|].
  exists k, n, m. split; [done|].
  by destruct (brief_findings_shown sample k n m Hshown) as (_ & _ & ? & _).
Defined.
